(** * django-tables: columns, registry assembly, accessor resolution and
      in-memory ordering

    A shallow embedding of [django_tables/columns.py], [django_tables/memory.py]
    and [django_tables/models.py], with the properties of the column/row
    binding and ordering engine proved over it. *)

From Stdlib Require Import ZArith String Ascii List Permutation OrdersEx.
From stdpp Require Import base option list gmap strings sorting.

Local Open Scope string_scope.
Local Open Scope Z_scope.

(** ** Exceptions and fallible results *)

(** The source raises [ValueError] (columns.py, models.py); a failed
    subscript on the bound columns raises [KeyError]; an attribute that an
    object does not have raises [AttributeError], and [list(x)] on an
    object that cannot be iterated raises [TypeError]. *)
Inductive exn : Type :=
  | ValueError (msg : string)
  | KeyError (key : string)
  | AttributeError (attribute : string)
  | TypeError (msg : string).

Inductive res (A : Type) : Type :=
  | Ok (a : A)
  | Raise (e : exn).
Arguments Ok {A} a.
Arguments Raise {A} e.

#[global] Instance res_ret : MRet res := fun A a => Ok a.
#[global] Instance res_bind : MBind res := fun A B k m =>
  match m with
  | Ok a => k a
  | Raise e => Raise e
  end.

Fixpoint mapM_res {A B} (f : A → res B) (l : list A) : res (list B) :=
  match l with
  | [] => Ok []
  | a :: t => b ← f a; bs ← mapM_res f t; Ok (b :: bs)
  end.

(** ** columns.py *)

Module Columns.

(** [Column.ASC = 1], [Column.DESC = 2]. *)
Definition ASC : Z := 1.
Definition DESC : Z := 2.

(** What a caller may pass as [direction]: a string, or any other object
    (the class constants are integers). *)
Inductive direction_arg : Type :=
  | DirStr (s : string)
  | DirInt (n : Z).

(** [Column._set_direction]: a string must be ['asc'] or ['desc'] (the
    test is [value in ('asc', 'desc')], an exact comparison); any other
    object is stored as it is. *)
Definition _set_direction (value : direction_arg) : res Z :=
  match value with
  | DirStr s =>
      if bool_decide (s = "asc") || bool_decide (s = "desc")
      then Ok (if bool_decide (s = "asc") then ASC else DESC)
      else Raise (ValueError ("Invalid direction value: " ++ s))
  | DirInt n => Ok n
  end.

(** A column; [D] is the type of the objects a default may be. *)
Record Column (D : Type) : Type := mkColumn {
  verbose_name : option string;
  model_rel : option string;
  default : D;
  visible : bool;
  inaccessible : bool;
  sortable : option bool;
  _direction : Z;
  creation_counter : nat
}.
Arguments mkColumn {D}.
Arguments verbose_name {D}.
Arguments model_rel {D}.
Arguments default {D}.
Arguments visible {D}.
Arguments inaccessible {D}.
Arguments sortable {D}.
Arguments _direction {D}.
Arguments creation_counter {D}.

(** The keyword arguments of [Column.__init__]. *)
Record ColumnArgs (D : Type) : Type := mkArgs {
  a_verbose_name : option string;
  a_model_rel : option string;
  a_default : D;
  a_visible : bool;
  a_inaccessible : bool;
  a_sortable : option bool;
  a_direction : direction_arg
}.
Arguments mkArgs {D}.
Arguments a_verbose_name {D}.
Arguments a_model_rel {D}.
Arguments a_default {D}.
Arguments a_visible {D}.
Arguments a_inaccessible {D}.
Arguments a_sortable {D}.
Arguments a_direction {D}.

(** [Column.__init__], with the class attribute [Column.creation_counter]
    threaded as state.  The assignment [self.direction = direction] runs
    the property setter before the counter is read and bumped, so a
    rejected direction leaves the counter as it was. *)
Definition __init__ {D} (a : ColumnArgs D) (counter : nat)
  : res (Column D) * nat :=
  match _set_direction (a_direction a) with
  | Raise e => (Raise e, counter)
  | Ok d =>
      (Ok (mkColumn (a_verbose_name a) (a_model_rel a) (a_default a)
             (a_visible a) (a_inaccessible a) (a_sortable a) d counter),
       S counter)
  end.

(** A run of constructor calls, in program order; the columns that were
    built are collected in construction order. *)
Fixpoint construct_all {D} (calls : list (ColumnArgs D)) (counter : nat)
  : list (Column D) * nat :=
  match calls with
  | [] => ([], counter)
  | a :: rest =>
      match __init__ a counter with
      | (Ok c, counter') =>
          let '(cs, final) := construct_all rest counter' in (c :: cs, final)
      | (Raise _, counter') => construct_all rest counter'
      end
  end.

(** Lower-casing is not part of the source; it is only used to state what
    a case-insensitive reading would accept. *)
Definition lower_ascii (c : ascii) : ascii :=
  let n := nat_of_ascii c in
  if (Nat.leb 65 n && Nat.leb n 90)%bool then ascii_of_nat (n + 32) else c.

Fixpoint lower (s : string) : string :=
  match s with
  | EmptyString => EmptyString
  | String c t => String (lower_ascii c) (lower t)
  end.

End Columns.

(** ** Helpers shared by the table classes (utils of base.py) *)

Module Base.
Import Columns.

(** Modelled from the spec: [rmprefix] of base.py, which is not among the
    embedded sources.  A leading minus is stripped to get the column name. *)
Definition rmprefix (s : string) : string :=
  match s with
  | String "-" rest => rest
  | _ => s
  end.

(** [o.startswith('-')]. *)
Definition has_prefix (s : string) : bool :=
  match s with
  | String "-" _ => true
  | _ => false
  end.

(** [toggleprefix] of base.py: drop the hyphen when there is one, add it
    when there is none. *)
Definition toggleprefix (s : string) : string :=
  match s with
  | String "-" rest => rest
  | _ => String "-" s
  end.


(** A column bound to a table under the name it is exposed as. *)
Record BoundColumn (D : Type) : Type := mkBound {
  name : string;
  column : Column D
}.
Arguments mkBound {D}.
Arguments name {D}.
Arguments column {D}.

(** Modelled from the spec: [BoundColumn.src_accessor] of base.py, which
    is not among the embedded sources.  The accessor path is the column's
    [model_rel] override, and the column's name when there is none. *)
Definition src_accessor {D} (bc : BoundColumn D) : string :=
  match model_rel (column bc) with
  | Some rel => rel
  | None => name bc
  end.

(** Modelled from the spec: the subscript [self.columns[name]] of base.py.
    The registry is keyed by name; a name that is not in it raises
    [KeyError]. *)
Fixpoint lookup_column {D} (cols : list (BoundColumn D)) (n : string)
  : res (BoundColumn D) :=
  match cols with
  | [] => Raise (KeyError n)
  | bc :: rest => if bool_decide (name bc = n) then Ok bc
                  else lookup_column rest n
  end.

(** Modelled from the spec: [BoundColumn.sortable] of base.py.  An
    explicit [sortable] decides; when it is unset the table's policy
    default does. *)
Definition bc_sortable {D} (policy : bool) (bc : BoundColumn D) : bool :=
  match sortable (column bc) with
  | Some b => b
  | None => policy
  end.

(** Modelled from the spec: [BaseTable._validate_column_name] of base.py.
    For the purpose ['order_by'] the name must exist in the registry, be
    sortable and be accessible; every other purpose is accepted. *)
Definition _validate_column_name {D} (policy : bool)
    (cols : list (BoundColumn D)) (n purpose : string) : bool :=
  if bool_decide (purpose = "order_by") then
    match lookup_column cols n with
    | Ok bc => bc_sortable policy bc && negb (inaccessible (column bc))
    | Raise _ => false
    end
  else true.





(** [BaseTable._resolve_sort_directions] is defined in base.py, which is
    not among the embedded sources.  What it does is fixed by the
    docstring of [Column] (the [direction] option 'changes the actual
    direction only indirectly': normal and reverse order then 'simply mean
    different things') and by [test_sort], where a column declared with
    [direction='desc'] ordered by ['name'] lists Berlin before Amsterdam
    and ordered by ['-name'] lists Amsterdam before Berlin: the hyphen of
    an instruction is toggled when its column's direction is [DESC]. *)
Definition _resolve_sort_directions {D} (cols : list (BoundColumn D))
    (order_by : list string) : res (list string) :=
  mapM_res (fun inst =>
    bc ← lookup_column cols (rmprefix inst);
    Ok (if bool_decide (_direction (column bc) = DESC)
        then toggleprefix inst else inst)) order_by.

(** Modelled from the spec: the effective direction as the specification
    words it, for comparison with [_resolve_sort_directions]: the explicit
    sign of the token when it has one, the column's own direction
    otherwise. *)
Definition spec_resolve_sort_directions {D} (cols : list (BoundColumn D))
    (order_by : list string) : res (list string) :=
  mapM_res (fun inst =>
    bc ← lookup_column cols (rmprefix inst);
    Ok (if has_prefix inst then inst
        else if bool_decide (_direction (column bc) = DESC)
             then String "-" inst else inst)) order_by.

(** Modelled from the spec: [BaseTable._col_names_to_src_names] of
    base.py.  Each instruction keeps its hyphen and has its column name
    replaced by the column's accessor path. *)
Definition _col_names_to_src_names {D} (cols : list (BoundColumn D))
    (names : list string) : res (list string) :=
  mapM_res (fun ident =>
    bc ← lookup_column cols (rmprefix ident);
    Ok (if has_prefix ident then String "-" (src_accessor bc)
        else src_accessor bc)) names.

(** The direction a resolved instruction sorts its key in. *)
Definition sorts_descending (inst : string) : bool := has_prefix inst.

End Base.

(** ** memory.py *)

Module Memory.
Import Base.

(** Callables are named by an identifier; [call] below gives what each
    returns. *)
Definition fn_id := nat.

(** The objects a dict row of a [MemoryTable] holds. *)
Inductive value : Type :=
  | VNone
  | VInt (n : Z)
  | VStr (s : string)
  | VFunc (f : fn_id).

#[global] Instance value_eq_dec : EqDecision value.
Proof. solve_decision. Defined.

(** A source record: a dict from keys to objects. *)
Abbreviation row := (gmap string value).

(** Records are shared objects: the data list and its copy hold
    references into the store. *)
Definition loc := nat.
Abbreviation store := (gmap loc (gmap string value)).

(** What a callable is applied to: the dict itself in [sort_table]
    ([lhs(x)]), a [BoundRow] over the dict in [get_default]. *)
Inductive call_arg : Type :=
  | ADict (x : row)
  | ABoundRow (x : row).

Definition callable (v : value) : bool :=
  match v with VFunc _ => true | _ => false end.

Definition is_None (v : value) : bool :=
  match v with VNone => true | _ => false end.

(** [x.get(name)]: [None] for a key the dict does not have. *)
Definition dict_get (x : row) (k : string) : value :=
  default VNone (x !! k).

Definition cmp_of (c : comparison) : Z :=
  match c with Lt => -1 | Eq => 0 | Gt => 1 end.

(** Objects of different types are ordered by type: [None] first, then
    numbers, then the other types by type name (function, str). *)
Definition type_rank (v : value) : Z :=
  match v with VNone => 0 | VInt _ => 1 | VFunc _ => 2 | VStr _ => 3 end.

(** The builtin [cmp]: negative, zero or positive.  Integers compare by
    value, strings character by character, function objects by identity. *)
Definition cmp (a b : value) : Z :=
  match a, b with
  | VInt x, VInt y => cmp_of (Z.compare x y)
  | VStr x, VStr y => cmp_of (String_as_OT.compare x y)
  | VFunc f, VFunc g => cmp_of (Nat.compare f g)
  | _, _ => cmp_of (Z.compare (type_rank a) (type_rank b))
  end.

(** [data.sort(cmp=c)]: the list sort is stable.  An element is placed
    before the first element of the sorted rest that it does not exceed,
    so it stays ahead of the later elements it compares equal to. *)
Fixpoint sort_insert {A} (c : A → A → Z) (a : A) (l : list A) : list A :=
  match l with
  | [] => [a]
  | b :: t => if Z.leb (c a b) 0 then a :: b :: t
              else b :: sort_insert c a t
  end.

Fixpoint list_sort {A} (c : A → A → Z) (l : list A) : list A :=
  match l with
  | [] => []
  | a :: t => sort_insert c a (list_sort c t)
  end.

(** The loop of [sort_table] that builds [instructions]. *)
Definition instructions (order_by : list string) : list (string * bool) :=
  map (fun o => match o with
                | String "-" rest => (rest, true)
                | _ => (o, false)
                end) order_by.

Section WithCallables.
Variable call : fn_id → call_arg → value.

(** [(callable(lhs) and [lhs(x)] or [lhs])[0]]. *)
Definition invoke (lhs : value) (x : row) : value :=
  match lhs with
  | VFunc f => call f (ADict x)
  | _ => lhs
  end.

(** The object a record is compared by under a key: [x.get(name)],
    called on the record when it is callable. *)
Definition key_value (k : string) (x : row) : value :=
  invoke (dict_get x k) x.

(** The comparison of two records on one key. *)
Definition key_cmp (k : string) (x y : row) : Z :=
  cmp (key_value k x) (key_value k y).

(** [_cmp] of [sort_table]. *)
Fixpoint _cmp (instr : list (string * bool)) (x y : row) : Z :=
  match instr with
  | [] => 0
  | (k, reverse) :: rest =>
      let res := key_cmp k x y in
      if negb (Z.eqb res 0) then (if reverse then - res else res)
      else _cmp rest x y
  end.

(** [sort_table(data, order_by)]; [get] dereferences an element of the
    list to its dict, and the result is the new content of [data]. *)
Definition sort_table {A} (get : A → row) (data : list A)
    (order_by : list string) : list A :=
  list_sort (fun a b => _cmp (instructions order_by) (get a) (get b)) data.

(** Modelled from the spec: [BoundColumn.get_default] of base.py.  A
    callable default is invoked with a [BoundRow] view of the record;
    any other default is used as it is. *)
Definition get_default (bc : BoundColumn value) (x : row) : value :=
  match Columns.default (column bc) with
  | VFunc f => call f (ABoundRow x)
  | d => d
  end.

Record MemoryTable : Type := mkTable {
  _data : list loc;
  columns : list (BoundColumn value);
  order_by : list string
}.

(** The inner loop of [_build_snapshot] over [self.columns.all()], on one
    record. *)
Definition fill_column (src_row : row) (bc : BoundColumn value) : row :=
  if is_None (dict_get src_row (src_accessor bc))
  then <[src_accessor bc := get_default bc src_row]> src_row
  else src_row.

Definition fill_row (cols : list (BoundColumn value)) (src_row : row)
  : row :=
  foldl fill_column src_row cols.

(** The outer loop: every record the copied list refers to is updated
    in the store. *)
Definition fill_defaults (cols : list (BoundColumn value))
    (snapshot : list loc) (σ : store) : store :=
  foldl (fun σ l => alter (fill_row cols) l σ) σ snapshot.

Definition deref (σ : store) (l : loc) : row := default ∅ (σ !! l).

(** [MemoryTable._build_snapshot]: the store after the call, and the
    returned snapshot. *)
Definition _build_snapshot (t : MemoryTable) (σ : store)
  : store * res (list loc) :=
  let snapshot := _data t in
  let σ' := fill_defaults (columns t) snapshot σ in
  match order_by t with
  | [] => (σ', Ok snapshot)
  | _ =>
      (σ',
       actual_order_by ← _resolve_sort_directions (columns t) (order_by t);
       keys ← _col_names_to_src_names (columns t) actual_order_by;
       Ok (sort_table (deref σ') snapshot keys))
  end.

End WithCallables.

End Memory.

(** ** models.py *)

Module Models.
Import Base.

(** Python objects as the accessor traversal sees them: what the object
    is, and its attributes. A callable attribute (a method bound to its
    instance) carries what a call without arguments returns; a call that
    raises is outside this model. *)
Inductive pyobj : Type :=
  | PyObj (d : datum) (attrs : list (string * pyobj))
with datum : Type :=
  | DNone
  | DInt (n : Z)
  | DStr (s : string)
  | DInstance
  | DCallable (ret : pyobj).

Definition datum_of (o : pyobj) : datum :=
  match o with PyObj d _ => d end.

Definition attrs_of (o : pyobj) : list (string * pyobj) :=
  match o with PyObj _ a => a end.

Fixpoint assoc {V} (k : string) (l : list (string * V)) : option V :=
  match l with
  | [] => None
  | (k', v) :: t => if bool_decide (k' = k) then Some v else assoc k t
  end.

(** [getattr(current, bit)], [None] here when [hasattr(current, bit)] is
    false. *)
Definition getattr (o : pyobj) (bit : string) : option pyobj :=
  assoc bit (attrs_of o).

Definition hasattr (o : pyobj) (bit : string) : bool :=
  match getattr o bit with Some _ => true | None => false end.

Definition is_None (o : pyobj) : bool :=
  match datum_of o with DNone => true | _ => false end.

Definition callable (o : pyobj) : bool :=
  match datum_of o with DCallable _ => true | _ => false end.

(** [current()] *)
Definition call0 (o : pyobj) : pyobj :=
  match datum_of o with DCallable ret => ret | _ => o end.

Definition None_ : pyobj := PyObj DNone [].

(** [src_accessor.split('__')]. *)
Fixpoint split_dunder (acc : string) (s : string) : list string :=
  match s with
  | EmptyString => [acc]
  | String "_" (String "_" rest) => acc :: split_dunder EmptyString rest
  | String c rest => split_dunder (acc ++ String c EmptyString) rest
  end.

(** A column default: an object, or a function of the bound row, which is
    a view of the record; a default whose call raises is outside this
    model. *)
Inductive default_obj : Type :=
  | DefaultObj (v : pyobj)
  | DefaultFn (f : pyobj → pyobj).

(** [boundcol.column.default is not None] *)
Definition default_is_not_None (d : default_obj) : bool :=
  match d with
  | DefaultObj v => negb (is_None v)
  | DefaultFn _ => true
  end.

(** Modelled from the spec: [BoundColumn.get_default] of base.py.  A
    callable default is invoked with the bound row; any other default is
    used as it is. *)
Definition get_default (bc : BoundColumn default_obj) (data : pyobj)
  : pyobj :=
  match Columns.default (column bc) with
  | DefaultFn f => f data
  | DefaultObj v => if callable v then call0 v else v
  end.

Definition could_not_resolve (bit accessor : string) : exn :=
  ValueError ("Could not resolve " ++ bit ++ " from " ++ accessor).

(** The [for bit in bits] loop of [_default_render]; the loop is left
    ([break]) at the first value that is [None]. *)
Fixpoint traverse (accessor : string) (bits : list string)
    (current : pyobj) : res pyobj :=
  match bits with
  | [] => Ok current
  | bit :: rest =>
      match getattr current bit with
      | None => Raise (could_not_resolve bit accessor)
      | Some v =>
          let current := if callable v then call0 v else v in
          if is_None current then Ok current
          else traverse accessor rest current
      end
  end.

(** The value a step of the loop continues with: the attribute, or what
    it returns when it is callable. *)
Definition resolved (v : pyobj) : pyobj :=
  if callable v then call0 v else v.

(** Walking a prefix of the path through attributes that exist and whose
    values are not [None]. *)
Fixpoint follow (bits : list string) (current : pyobj) : option pyobj :=
  match bits with
  | [] => Some current
  | bit :: rest =>
      match getattr current bit with
      | Some v => if is_None (resolved v) then None
                  else follow rest (resolved v)
      | None => None
      end
  end.

(** [BoundModelRow._default_render]; [data] is [self.data]. *)
Definition _default_render (data : pyobj)
    (boundcol : BoundColumn default_obj) : res pyobj :=
  let bits := split_dunder EmptyString (src_accessor boundcol) in
  current ← traverse (src_accessor boundcol) bits data;
  if is_None current then
    if default_is_not_None (Columns.default (column boundcol))
    then Ok (get_default boundcol data)
    else Ok current
  else Ok current.

(** *** Ordering validation *)


Section Validation.
(** [self.queryset.model]: [None] when the table's queryset has no
    attribute [model] (the table was given a list); otherwise whether
    Django answers [FieldError] when the model's default manager is asked
    to compile [order_by(path)]. *)
Variable queryset_model : option (string → bool).
(** The table's policy for columns whose [sortable] is unset. *)
Variable policy : bool.

(** [ModelTable._validate_column_name].  Only [FieldError] is caught: the
    [AttributeError] of [self.queryset.model] on a queryset without a
    model leaves the method. *)
Definition _validate_column_name {D} (cols : list (BoundColumn D))
    (n purpose : string) : res bool :=
  let result := Base._validate_column_name policy cols n purpose in
  if negb result then Ok false
  else if bool_decide (purpose = "order_by") then
    column ← lookup_column cols n;
    match queryset_model with
    | None => Raise (AttributeError "model")
    | Some field_error =>
        if field_error (src_accessor column) then Ok false else Ok true
    end
  else Ok false.

End Validation.

(** *** Registry assembly *)

(** [OrderedDict]: keys are unique and keep the position of their first
    insertion; storing under an existing key replaces the value in
    place. *)
Fixpoint od_set {V} (k : string) (v : V) (d : list (string * V))
  : list (string * V) :=
  match d with
  | [] => [(k, v)]
  | (k', v') :: t => if bool_decide (k' = k) then (k', v) :: t
                     else (k', v') :: od_set k v t
  end.

(** [d.update(other)], also [OrderedDict(pairs)] from the empty dict. *)
Definition od_update {V} (d other : list (string * V)) : list (string * V) :=
  foldl (fun d kv => od_set kv.1 kv.2 d) d other.

Definition od_of_list {V} (pairs : list (string * V)) : list (string * V) :=
  od_update [] pairs.

Definition od_keys {V} (d : list (string * V)) : list string := map fst d.

Record Field : Type := mkField {
  f_name : string;
  f_verbose_name : string
}.

(** [model._meta] *)
Record Model : Type := mkModel {
  fields : list Field;
  many_to_many : list Field
}.

(** Truth of an optional list ([columns and ...], [if columns:]). *)
Definition truthy (l : option (list string)) : bool :=
  match l with Some (_ :: _) => true | _ => false end.

Definition names_of (l : option (list string)) : list string :=
  match l with Some l => l | None => [] end.

Definition is_in (n : string) (l : option (list string)) : bool :=
  bool_decide (n ∈ names_of l).

Definition column_args (verbose : option string)
  : Columns.ColumnArgs default_obj :=
  Columns.mkArgs verbose None (DefaultObj None_) true false None
    (Columns.DirInt Columns.ASC).

(** The test that makes the loop of [columns_for_model] pass over a
    field: [(columns and f.name not in columns) or (exclude and f.name in
    exclude)]. *)
Definition skipped (columns exclude : option (list string)) (n : string)
  : bool :=
  (truthy columns && negb (is_in n columns))
  || (truthy exclude && is_in n exclude).

(** The [for f in opts.fields + opts.many_to_many] loop of
    [columns_for_model]. *)
Fixpoint field_list (fs : list Field) (columns exclude : option (list string))
    (counter : nat)
  : list (string * Columns.Column default_obj) * nat :=
  match fs with
  | [] => ([], counter)
  | f :: rest =>
      if skipped columns exclude (f_name f)
      then field_list rest columns exclude counter
      else
        match Columns.__init__ (column_args (Some (f_verbose_name f))) counter with
        | (Ok column, counter') =>
            let '(l, final) := field_list rest columns exclude counter' in
            ((f_name f, column) :: l, final)
        | (Raise _, counter') => field_list rest columns exclude counter'
        end
  end.

(** [columns_for_model]; a name of [columns] that no field carries is
    kept, bound to [None]. *)
Definition columns_for_model (model : Model)
    (columns exclude : option (list string)) (counter : nat)
  : list (string * option (Columns.Column default_obj)) * nat :=
  let '(fl, counter') :=
    field_list (fields model ++ many_to_many model) columns exclude counter in
  let field_dict := od_of_list fl in
  if truthy columns then
    (od_of_list
       (map (fun c => (c, assoc c field_dict))
          (filter (fun c => negb (truthy exclude)
                            || (truthy exclude && negb (is_in c exclude)) = true)
             (names_of columns))),
     counter')
  else (map (fun kv => (kv.1, Some kv.2)) field_dict, counter').

(** [ModelTableOptions] *)
Record ModelTableOptions : Type := mkOptions {
  model : option Model;
  opt_columns : option (list string);
  opt_exclude : option (list string)
}.

(** [ModelTableMetaclass.__new__]: the [base_columns] of the new class,
    from its declared columns (those of the class and of its bases, as
    [DeclarativeColumnsMetaclass] collects them). *)
Definition base_columns (opts : ModelTableOptions)
    (declared_columns : list (string * Columns.Column default_obj))
    (counter : nat)
  : list (string * option (Columns.Column default_obj)) * nat :=
  match model opts with
  | Some m =>
      let '(columns, counter') :=
        columns_for_model m (opt_columns opts) (opt_exclude opts) counter in
      (od_update columns (map (fun kv => (kv.1, Some kv.2)) declared_columns),
       counter')
  | None => (map (fun kv => (kv.1, Some kv.2)) declared_columns, counter)
  end.

End Models.

(** ** Sample tables, after the test suite *)

Module Samples.
Import Base Memory.

(** No callable is involved in the samples. *)
Definition no_call : fn_id → call_arg → value := fun _ _ => VNone.

Definition plain_column (default : value) (direction : Z)
  : Columns.Column value :=
  Columns.mkColumn None None default true false None direction 0%nat.

(** The cities of the test suite, as dict records: Berlin has id 1,
    Amsterdam has id 2. *)
Definition city (id : Z) (n : string) : gmap string value :=
  <["id" := VInt id]> (<["name" := VStr n]> ∅).

Definition cities_store : gmap nat (gmap string value) :=
  <[1%nat := city 1 "Berlin"]> (<[2%nat := city 2 "Amsterdam"]> ∅).

(** [CityTable] of [test_sort]: [name = Column(direction='desc')]. *)
Definition cities_columns : list (BoundColumn value) :=
  [mkBound "name" (plain_column VNone Columns.DESC)].

Definition cities_table (order : list string) : MemoryTable :=
  mkTable [1%nat; 2%nat] cities_columns order.

(** The orders [test_sort] expects of that table: ['name'] gives Berlin
    then Amsterdam, ['-name'] gives Amsterdam then Berlin. *)
Definition test_sort_expected (order : string) : list nat :=
  if bool_decide (order = "name") then [1%nat; 2%nat] else [2%nat; 1%nat].

(** Two records with the same value under the key ['k']. *)
Definition tied (id : nat) : gmap string value :=
  <["id" := VInt (Z.of_nat id)]> (<["k" := VInt 5]> ∅).

(** A record that lacks ['b'], and a table whose column ['b'] has the
    default ['x']. *)
Definition sparse_store : gmap nat (gmap string value) :=
  <[0%nat := <["a" := VInt 1]> ∅]> ∅.

Definition sparse_table : MemoryTable :=
  mkTable [0%nat]
    [mkBound "a" (plain_column VNone Columns.ASC);
     mkBound "b" (plain_column (VStr "x") Columns.ASC)] [].

(** Records with distinct populations. *)
Definition populated (i : nat) : gmap string value :=
  <["population" := VInt (match i with 1%nat => 30 | 2%nat => 6 | _ => 64 end)]> ∅.

Definition population_table : MemoryTable :=
  mkTable [1%nat; 2%nat; 3%nat]
    [mkBound "population" (plain_column VNone Columns.ASC)] ["-population"].

Definition population_store : gmap nat (gmap string value) :=
  <[1%nat := populated 1]> (<[2%nat := populated 2]> (<[3%nat := populated 3]> ∅)).

(** Model instances of the test suite. *)
Definition py_str (s : string) : Models.pyobj := Models.PyObj (Models.DStr s) [].
Definition py_int (n : Z) : Models.pyobj := Models.PyObj (Models.DInt n) [].

Definition berlin : Models.pyobj :=
  Models.PyObj Models.DInstance
    [("id", py_int 1); ("name", py_str "Berlin"); ("population", py_int 30)].

(** Germany has a capital; Austria has none. [example_domain] is a
    method. *)
Definition germany : Models.pyobj :=
  Models.PyObj Models.DInstance
    [("id", py_int 2); ("name", py_str "Germany"); ("tld", py_str "de");
     ("capital", berlin); ("system", Models.None_);
     ("example_domain",
      Models.PyObj (Models.DCallable (py_str "example.de")) [])].

Definition austria : Models.pyobj :=
  Models.PyObj Models.DInstance
    [("id", py_int 1); ("name", py_str "Austria"); ("tld", py_str "au");
     ("capital", Models.None_); ("system", py_str "republic")].

Definition model_column (rel : option string) (default : Models.default_obj)
  : Columns.Column Models.default_obj :=
  Columns.mkColumn None rel default true false None Columns.ASC 0%nat.

Definition no_default : Models.default_obj := Models.DefaultObj Models.None_.

(** [capital_name = Column(model_rel='capital__name')] *)
Definition capital_name : BoundColumn Models.default_obj :=
  mkBound "capital_name" (model_column (Some "capital__name") no_default).

(** [invalid = Column(model_rel='capital__invalid')] *)
Definition invalid : BoundColumn Models.default_obj :=
  mkBound "invalid" (model_column (Some "capital__invalid") no_default).

(** [name = Column(model_rel='something-i-made-up')] of
    [test_invalid_accessor]. *)
Definition made_up : BoundColumn Models.default_obj :=
  mkBound "name" (model_column (Some "something-i-made-up") no_default).

(** The models of the test application. *)
Definition field (n : string) : Models.Field := Models.mkField n n.

Definition Country : Models.Model :=
  Models.mkModel
    [field "id"; field "name"; field "population"; field "capital";
     Models.mkField "tld" "Domain Extension"; field "system"; field "null";
     field "null2"] [].

Definition City : Models.Model :=
  Models.mkModel [field "id"; field "name"; field "population"] [].

(** The columns [capital] and [projected] that [test_autogen_basic]
    declares. *)
Definition declared_capital_projected
  : list (string * Columns.Column Models.default_obj) :=
  [("capital", Columns.mkColumn (Some "Name of capital") None no_default
                 true false None Columns.ASC 0%nat);
   ("projected", Columns.mkColumn (Some "Projected Population") None
                   no_default true false None Columns.ASC 1%nat)].

(** [foo = Column()] of [test_columns_custom_order]. *)
Definition declared_foo : list (string * Columns.Column Models.default_obj) :=
  [("foo", model_column None no_default)].

(** [system = Column(default='republic')] *)
Definition system : BoundColumn Models.default_obj :=
  mkBound "system" (model_column None (Models.DefaultObj (py_str "republic"))).

End Samples.

(** ** utils.py *)

Module Utils.

(** [s.lstrip('-')]: every leading hyphen is removed. *)
Fixpoint lstrip_hyphen (s : string) : string :=
  match s with
  | String "-" rest => lstrip_hyphen rest
  | _ => s
  end.

(** What [get_order_by] returns: [None], the string of the query, or the
    two-element list [[order_by, secondary]]. *)
Inductive order_by_value : Type :=
  | NoOrder
  | OneOrder (order_by : string)
  | TwoOrders (order_by : string) (secondary : option string).

(** [get_order_by(query_dict, order_by_param, secondary=None)]; the query
    data is a dict from parameter names to strings, and an empty string is
    false. *)
Definition get_order_by (query_dict : gmap string string)
    (order_by_param : string) (secondary : option string) : order_by_value :=
  match query_dict !! order_by_param with
  | None => NoOrder
  | Some order_by =>
      if negb (bool_decide (order_by = EmptyString))
         && negb (bool_decide (Some (lstrip_hyphen order_by) = secondary))
      then TwoOrders order_by secondary
      else OneOrder order_by
  end.

End Utils.

(** ** models.py: rows and table construction *)

Module ModelRows.

(** The table's data as [__len__] tells it apart: a list; a queryset (an
    object with a callable [count] and with [select_related]); a sequence
    that is no list (a tuple or a string: it has a callable [count] and no
    [select_related]); any other iterable (a raw queryset); an object that
    cannot be iterated at all.  [rows] is what the source holds at the
    time of the call. *)
Inductive source (R : Type) : Type :=
  | ListData (rows : list R)
  | QuerySet (rows : list R)
  | Sequence (rows : list R)
  | Iterable (rows : list R)
  | Opaque.
Arguments ListData {R}.
Arguments QuerySet {R}.
Arguments Sequence {R}.
Arguments Iterable {R}.
Arguments Opaque {R}.

Definition rows_of {R} (data : source R) : list R :=
  match data with
  | ListData rows | QuerySet rows | Sequence rows | Iterable rows => rows
  | Opaque => []
  end.

(** What the source is asked to do: answer [count()], or hand out all its
    rows ([list(data)]). *)
Inductive request : Type :=
  | CountQuery
  | LoadAll.

(** The cached length of a [ModelRows], and the requests made so far. *)
Record rows_state : Type := mkRows {
  _length : option nat;
  requests : list request
}.

(** [ModelRows._reset] *)
Definition _reset (st : rows_state) : rows_state :=
  mkRows None (requests st).

(** [ModelRows.__len__]: the length, or the exception that leaves the
    method, and the state after the call.  An exception is raised before
    [self._length] is assigned. *)
Definition __len__ {R} (data : source R) (st : rows_state)
  : res nat * rows_state :=
  match _length st with
  | Some n => (Ok n, st)
  | None =>
      match data with
      | ListData rows =>
          (Ok (length rows), mkRows (Some (length rows)) (requests st))
      | QuerySet rows =>
          (Ok (length rows),
           mkRows (Some (length rows)) (requests st ++ [CountQuery]))
      | Sequence _ => (Raise (AttributeError "select_related"), st)
      | Iterable rows =>
          (Ok (length rows),
           mkRows (Some (length rows)) (requests st ++ [LoadAll]))
      | Opaque => (Raise (TypeError "object is not iterable"), st)
      end
  end.

End ModelRows.

Module ModelTableInit.
Import Models.

(** The [data] argument of [ModelTable.__init__]: [None], a list, a model
    class (an object with [_default_manager]), or anything else (a
    queryset). *)
Inductive data_arg (R Q : Type) : Type :=
  | NoData
  | ListArg (l : list R)
  | ModelArg (m : Model)
  | OtherArg (q : Q).
Arguments NoData {R Q}.
Arguments ListArg {R Q}.
Arguments ModelArg {R Q}.
Arguments OtherArg {R Q}.

(** [self.queryset]: the empty queryset of a model's default manager
    ([none()]), all its rows ([all()]), or the data as it was given. *)
Inductive table_queryset (R Q : Type) : Type :=
  | ManagerNone (m : Model)
  | ManagerAll (m : Model)
  | GivenList (l : list R)
  | GivenOther (q : Q).
Arguments ManagerNone {R Q}.
Arguments ManagerAll {R Q}.
Arguments GivenList {R Q}.
Arguments GivenOther {R Q}.

(** [ModelTable.__init__] up to the call of the base constructor:
    [meta_model] is [self._meta.model]. *)
Definition __init__ {R Q} (meta_model : option Model) (data : data_arg R Q)
  : res (table_queryset R Q) :=
  let data := match data with ListArg [] => NoData | d => d end in
  match data with
  | NoData =>
      match meta_model with
      | None => Raise (ValueError
          "Table without a model association needs to be initialized with data")
      | Some m => Ok (ManagerNone m)
      end
  | ModelArg m => Ok (ManagerAll m)
  | ListArg l => Ok (GivenList l)
  | OtherArg q => Ok (GivenOther q)
  end.

End ModelTableInit.

(** ** Helpers for stating further properties *)

Module Paths.

(** ['__'.join(bits)] *)
Fixpoint join_dunder (bits : list string) : string :=
  match bits with
  | [] => EmptyString
  | [b] => b
  | b :: rest => b ++ "__" ++ join_dunder rest
  end.



(** A column that differs from [bc] in its default only. *)
Definition with_default {D} (bc : Base.BoundColumn D) (d : D)
  : Base.BoundColumn D :=
  Base.mkBound (Base.name bc)
    (Columns.mkColumn (Columns.verbose_name (Base.column bc))
       (Columns.model_rel (Base.column bc)) d
       (Columns.visible (Base.column bc))
       (Columns.inaccessible (Base.column bc))
       (Columns.sortable (Base.column bc))
       (Columns._direction (Base.column bc))
       (Columns.creation_counter (Base.column bc))).

End Paths.

(** ** Further sample data *)

Module MoreSamples.
Import Base Memory.

(** Three records; the first has no value under ['k']. *)
Definition partial (i : nat) : gmap string value :=
  match i with
  | 1%nat => ∅
  | _ => <["k" := VInt (Z.of_nat i)]> ∅
  end.

(** Two records ordered by ['rank']: the first has no rank and the
    column's default is 5, the second has rank 1. *)
Definition ranked_store : gmap nat (gmap string value) :=
  <[1%nat := <["id" := VInt 1]> ∅]>
    (<[2%nat := <["id" := VInt 2]> (<["rank" := VInt 1]> ∅)]> ∅).

Definition ranked_table : MemoryTable :=
  mkTable [1%nat; 2%nat]
    [mkBound "rank" (Samples.plain_column (VInt 5) Columns.ASC)] ["rank"].


End MoreSamples.

(** * Properties *)

(** ** Column construction *)

Module ColumnFacts.
Import Columns.

Lemma set_direction_string (s : string) :
  _set_direction (DirStr s) =
    if bool_decide (s = "asc") then Ok ASC
    else if bool_decide (s = "desc") then Ok DESC
    else Raise (ValueError ("Invalid direction value: " ++ s)).
Proof.
  unfold _set_direction.
  destruct (bool_decide (s = "asc")), (bool_decide (s = "desc")); reflexivity.
Qed.

(** C7, as stated, fails: ['ASC'] is ['asc'] up to case, and the setter
    rejects it. *)
Lemma direction_upper_case_rejected :
  ¬ ((∃ d, _set_direction (DirStr "ASC") = Ok d)
     ↔ (lower "ASC" = "asc" ∨ lower "ASC" = "desc")).
Proof.
  intros [_ H]. destruct H as [d Hd]; [left; reflexivity | discriminate Hd].
Qed.

(** C7, amended: a string direction is accepted exactly when it is the
    string ['asc'] or the string ['desc'], compared exactly; ['asc'] gives
    [ASC], ['desc'] gives [DESC], and every other string raises
    [ValueError] with the message naming the value. *)
Theorem set_direction_exact (s : string) :
  ((∃ d, _set_direction (DirStr s) = Ok d) ↔ (s = "asc" ∨ s = "desc"))
  ∧ _set_direction (DirStr "asc") = Ok ASC
  ∧ _set_direction (DirStr "desc") = Ok DESC
  ∧ (_set_direction (DirStr s)
       = Raise (ValueError ("Invalid direction value: " ++ s))
     ↔ ¬ (s = "asc" ∨ s = "desc")).
Proof.
  rewrite set_direction_string.
  repeat split; try reflexivity.
  - intros [d Hd]. repeat case_bool_decide; auto; discriminate.
  - intros [-> | ->]; eexists; reflexivity.
  - intros H [-> | ->]; discriminate H.
  - intros H. repeat case_bool_decide; tauto.
Qed.

Section Counter.
Context {D : Type}.

Lemma init_counter (a : ColumnArgs D) (n : nat) :
  match __init__ a n with
  | (Ok c, n') => creation_counter c = n ∧ n' = S n
  | (Raise _, n') => n' = n
  end.
Proof.
  unfold __init__. destruct (_set_direction (a_direction a)); simpl; auto.
Qed.

Lemma construct_all_bounds (calls : list (ColumnArgs D)) (n : nat) :
  (n ≤ (construct_all calls n).2)%nat
  ∧ Forall (fun c => n ≤ creation_counter c < (construct_all calls n).2)%nat
      (construct_all calls n).1.
Proof.
  revert n. induction calls as [|a rest IH]; intros n; simpl.
  - split; [lia | constructor].
  - pose proof (init_counter a n) as Hi.
    destruct (__init__ a n) as [[c|e] n'].
    + destruct Hi as [Hc ->].
      destruct (IH (S n)) as [Hle Hall].
      destruct (construct_all rest (S n)) as [cs final]; simpl in *.
      split; [lia|]. constructor; [lia|].
      eapply Forall_impl; [exact Hall|]. simpl. intros; lia.
    + subst n'. apply IH.
Qed.

(** C9: in any run of constructor calls, each column that is built has a
    creation counter strictly greater than that of every column built
    before it; the counters start at the value the class attribute had
    and stay below the value it has afterwards. *)
Theorem creation_counter_increasing (calls : list (ColumnArgs D))
    (n : nat) :
  StronglySorted (fun c1 c2 => creation_counter c1 < creation_counter c2)%nat
    (construct_all calls n).1
  ∧ Forall (fun c => n ≤ creation_counter c < (construct_all calls n).2)%nat
      (construct_all calls n).1.
Proof.
  split; [|apply construct_all_bounds].
  revert n. induction calls as [|a rest IH]; intros n; simpl.
  - constructor.
  - pose proof (init_counter a n) as Hi.
    destruct (__init__ a n) as [[c|e] n'].
    + destruct Hi as [Hc ->].
      pose proof (IH (S n)) as Hs.
      destruct (construct_all_bounds rest (S n)) as [_ Hall].
      destruct (construct_all rest (S n)) as [cs final]; simpl in *.
      constructor; [exact Hs|].
      eapply Forall_impl; [exact Hall|]. simpl. intros; lia.
    + subst n'. apply IH.
Qed.
End Counter.

End ColumnFacts.

(** ** The stable list sort *)

Module SortFacts.
Import Memory.

Lemma StronglySorted_impl {A} (R R' : A → A → Prop) (l : list A) :
  (∀ x y, R x y → R' x y) → StronglySorted R l → StronglySorted R' l.
Proof.
  intros HR. induction 1 as [|x l Hs IH Hx]; constructor; auto.
  eapply Forall_impl; eauto.
Qed.

Section Generic.
Context {A : Type} (c : A → A → Z).

Lemma sort_insert_perm (a : A) (l : list A) : sort_insert c a l ≡ₚ a :: l.
Proof.
  induction l as [|b t IH]; simpl; [reflexivity|].
  destruct (Z.leb (c a b) 0); [reflexivity|].
  rewrite IH. apply Permutation_swap.
Qed.

Lemma list_sort_perm (l : list A) : list_sort c l ≡ₚ l.
Proof.
  induction l as [|a t IH]; simpl; [reflexivity|].
  rewrite sort_insert_perm. by rewrite IH.
Qed.

(** The comparison function is a consistent three-way comparison. *)
Hypothesis c_antisym : ∀ x y, c y x = - c x y.
Hypothesis c_trans : ∀ x y z, c x y ≤ 0 → c y z ≤ 0 → c x z ≤ 0.

Lemma sort_insert_sorted (a : A) (l : list A) :
  StronglySorted (fun x y => c x y ≤ 0) l →
  StronglySorted (fun x y => c x y ≤ 0) (sort_insert c a l).
Proof.
  induction 1 as [|b t Hs IH Hb]; simpl.
  - repeat constructor.
  - destruct (Z.leb_spec (c a b) 0) as [Hle|Hgt].
    + constructor; [by constructor|].
      constructor; [exact Hle|].
      eapply Forall_impl; [exact Hb|]. simpl. eauto.
    + constructor; [exact IH|].
      rewrite sort_insert_perm. constructor; [|exact Hb].
      rewrite c_antisym. lia.
Qed.

Lemma list_sort_sorted (l : list A) :
  StronglySorted (fun x y => c x y ≤ 0) (list_sort c l).
Proof.
  induction l as [|a t IH]; simpl; [constructor|].
  by apply sort_insert_sorted.
Qed.

(** Stability: records that compare equal keep their relative order. *)
Hypothesis c_eq_trans : ∀ x a b, c x a = 0 → c x b = 0 → c a b = 0.

Lemma sort_insert_stable (x a : A) (l : list A) :
  filter (fun y => c x y = 0) (sort_insert c a l)
  = filter (fun y => c x y = 0) (a :: l).
Proof.
  induction l as [|b t IH]; simpl; [reflexivity|].
  destruct (Z.leb_spec (c a b) 0) as [Hle|Hgt]; [reflexivity|].
  rewrite (filter_cons _ b), IH, !filter_cons.
  destruct (decide (c x b = 0)) as [Hb|Hb],
           (decide (c x a = 0)) as [Ha|Ha]; try reflexivity.
  pose proof (c_eq_trans x a b Ha Hb). lia.
Qed.

Lemma list_sort_stable (x : A) (l : list A) :
  filter (fun y => c x y = 0) (list_sort c l)
  = filter (fun y => c x y = 0) l.
Proof.
  induction l as [|a t IH]; simpl; [reflexivity|].
  rewrite sort_insert_stable, !filter_cons, IH. reflexivity.
Qed.
End Generic.

(** Sorting with the negated comparison. *)
Section Reverse.
Context {A : Type} (c : A → A → Z).
Hypothesis c_antisym : ∀ x y, c y x = - c x y.
Hypothesis c_trans : ∀ x y z, c x y ≤ 0 → c y z ≤ 0 → c x z ≤ 0.

Lemma list_sort_negated (l : list A) :
  (∀ x y, x ∈ l → y ∈ l → c x y = 0 → x = y) →
  list_sort (fun x y => - c x y) l = reverse (list_sort c l).
Proof.
  intros Hdistinct.
  apply (StronglySorted_unique_strong (fun x y => - c x y ≤ 0)).
  - intros x y Hx Hy H1 H2.
    rewrite list_sort_perm in Hx.
    rewrite reverse_Permutation, list_sort_perm in Hy.
    apply Hdistinct; auto. specialize (c_antisym x y). lia.
  - apply list_sort_sorted.
    + intros x y. rewrite c_antisym. lia.
    + intros x y z H1 H2.
      pose proof (c_trans z y x). rewrite !(c_antisym _ x), !(c_antisym _ y) in *.
      pose proof (c_antisym z y). pose proof (c_antisym y x). pose proof (c_antisym z x).
      lia.
  - apply (StronglySorted_impl (flip (fun x y => c x y ≤ 0))).
    { unfold flip. intros x y. rewrite (c_antisym x y). lia. }
    apply Sorted_StronglySorted.
    { intros x y z. unfold flip. eauto. }
    apply Sorted_reverse, StronglySorted_Sorted, list_sort_sorted; auto.
  - rewrite reverse_Permutation, !list_sort_perm. reflexivity.
Qed.
End Reverse.

End SortFacts.

(** ** The builtin comparison and [_cmp] *)

Module CmpFacts.
Import Base Memory.

Lemma cmp_of_opp (c : comparison) : cmp_of (CompOpp c) = - cmp_of c.
Proof. by destruct c. Qed.

Lemma cmp_of_neg (c : comparison) : cmp_of c < 0 ↔ c = Lt.
Proof. destruct c; simpl; split; (lia || congruence). Qed.

Lemma cmp_of_zero (c : comparison) : cmp_of c = 0 ↔ c = Eq.
Proof. destruct c; simpl; split; (lia || congruence). Qed.

Lemma str_compare_refl (s : string) : String_as_OT.compare s s = Eq.
Proof.
  destruct (String_as_OT.compare_spec s s) as [_|H|H]; [reflexivity| |];
    exfalso; exact (irreflexivity String_as_OT.lt s H).
Qed.

Lemma str_compare_antisym (x y : string) :
  String_as_OT.compare y x = CompOpp (String_as_OT.compare x y).
Proof.
  destruct (String_as_OT.compare_spec x y) as [->|H|H]; simpl.
  - apply str_compare_refl.
  - destruct (String_as_OT.compare_spec y x) as [->|H'|H']; [| |reflexivity];
      exfalso.
    + exact (irreflexivity String_as_OT.lt x H).
    + exact (irreflexivity String_as_OT.lt x (transitivity H H')).
  - exact H.
Qed.

Lemma cmp_refl (a : value) : cmp a a = 0.
Proof.
  destruct a; simpl; try reflexivity.
  - by rewrite Z.compare_refl.
  - by rewrite str_compare_refl.
  - by rewrite Nat.compare_refl.
Qed.

Lemma cmp_antisym (a b : value) : cmp b a = - cmp a b.
Proof.
  destruct a, b; simpl; try reflexivity.
  - by rewrite (Z.compare_antisym n n0), cmp_of_opp.
  - by rewrite (str_compare_antisym s s0), cmp_of_opp.
  - by rewrite (Nat.compare_antisym f f0), cmp_of_opp.
Qed.

Lemma cmp_eq (a b : value) : cmp a b = 0 → a = b.
Proof.
  destruct a, b; simpl; try reflexivity; try discriminate;
    rewrite cmp_of_zero; intros H.
  - by apply Z.compare_eq in H; subst.
  - destruct (String_as_OT.compare_spec s s0); congruence.
  - by apply Nat.compare_eq in H; subst.
Qed.

Lemma cmp_lt_trans (a b c : value) : cmp a b < 0 → cmp b c < 0 → cmp a c < 0.
Proof.
  destruct a, b, c; simpl; try lia; rewrite !cmp_of_neg.
  - rewrite !Z.compare_lt_iff. lia.
  - intros H1 H2. exact (transitivity (R := String_as_OT.lt) H1 H2).
  - rewrite !Nat.compare_lt_iff. lia.
Qed.

Section WithCallables.
Variable call : fn_id → call_arg → value.

Local Abbreviation key_value := (key_value call).

Lemma key_cmp_unfold k x y :
  key_cmp call k x y = cmp (key_value k x) (key_value k y).
Proof. reflexivity. Qed.

Lemma _cmp_cons k (reverse : bool) rest x y :
  _cmp call ((k, reverse) :: rest) x y =
    if decide (key_cmp call k x y = 0) then _cmp call rest x y
    else if reverse then - key_cmp call k x y else key_cmp call k x y.
Proof.
  simpl. destruct (Z.eqb_spec (key_cmp call k x y) 0);
    destruct (decide _); simpl; congruence.
Qed.

Lemma _cmp_antisym instr x y : _cmp call instr y x = - _cmp call instr x y.
Proof.
  induction instr as [|[k r] rest IH]; [reflexivity|].
  rewrite !_cmp_cons, !key_cmp_unfold, (cmp_antisym (key_value k x)).
  repeat case_decide; try lia. destruct r; lia.
Qed.

Lemma _cmp_refl instr x : _cmp call instr x x = 0.
Proof. pose proof (_cmp_antisym instr x x). lia. Qed.

Lemma _cmp_trans instr x y z :
  _cmp call instr x y ≤ 0 → _cmp call instr y z ≤ 0 →
  _cmp call instr x z ≤ 0.
Proof.
  induction instr as [|[k r] rest IH]; [simpl; lia|].
  rewrite !_cmp_cons, !key_cmp_unfold.
  pose proof (cmp_lt_trans (key_value k x) (key_value k y) (key_value k z)).
  pose proof (cmp_lt_trans (key_value k z) (key_value k y) (key_value k x)).
  pose proof (cmp_antisym (key_value k x) (key_value k y)).
  pose proof (cmp_antisym (key_value k y) (key_value k z)).
  pose proof (cmp_antisym (key_value k x) (key_value k z)).
  destruct (decide (cmp (key_value k x) (key_value k y) = 0)) as [E1|E1].
  { apply cmp_eq in E1. rewrite E1.
    destruct (decide (cmp (key_value k y) (key_value k z) = 0)); auto. }
  destruct (decide (cmp (key_value k y) (key_value k z) = 0)) as [E2|E2].
  { apply cmp_eq in E2. rewrite <- E2.
    rewrite decide_False by exact E1. auto. }
  destruct (decide (cmp (key_value k x) (key_value k z) = 0)) as [E3|E3].
  { apply cmp_eq in E3. rewrite E3 in *. destruct r; lia. }
  destruct r; lia.
Qed.

Lemma _cmp_zero instr x y :
  _cmp call instr x y = 0 ↔
  Forall (fun kr => key_value kr.1 x = key_value kr.1 y) instr.
Proof.
  induction instr as [|[k r] rest IH].
  - simpl. split; [constructor | reflexivity].
  - rewrite _cmp_cons, Forall_cons, key_cmp_unfold. simpl.
    case_decide as E.
    + rewrite IH. apply cmp_eq in E. tauto.
    + split.
      * destruct r; lia.
      * intros [Heq _]. rewrite Heq, cmp_refl in E. done.
Qed.

Lemma _cmp_eq_trans instr x a b :
  _cmp call instr x a = 0 → _cmp call instr x b = 0 →
  _cmp call instr a b = 0.
Proof.
  rewrite !_cmp_zero, !Forall_forall. intros H1 H2 kr Hkr.
  rewrite <- (H1 kr Hkr). auto.
Qed.

(** The first key on which two records differ decides, with the sign
    of its comparison inverted when the key is flagged as reversed. *)
Lemma _cmp_lexicographic instr x y :
  _cmp call instr x y ≠ 0 →
  ∃ before k (reverse : bool) after,
    instr = (before ++ (k, reverse) :: after)%list
    ∧ Forall (fun kr => key_cmp call kr.1 x y = 0) before
    ∧ key_cmp call k x y ≠ 0
    ∧ _cmp call instr x y
        = if reverse then - key_cmp call k x y else key_cmp call k x y.
Proof.
  induction instr as [|[k r] rest IH]; [simpl; lia|].
  rewrite _cmp_cons. case_decide as E.
  - intros Hne. destruct (IH Hne) as (before & k' & r' & after & -> & Hb & Hk & Hv).
    exists ((k, r) :: before), k', r', after.
    split; [reflexivity|]. split; [by constructor|]. split; [exact Hk|exact Hv].
  - intros _. exists [], k, r, rest. repeat split; auto.
Qed.

Lemma instructions_cons o rest :
  instructions (o :: rest) = (rmprefix o, has_prefix o) :: instructions rest.
Proof.
  unfold instructions. simpl. f_equal.
  destruct o as [|a s]; [reflexivity|].
  destruct a as [[] [] [] [] [] [] [] []]; reflexivity.
Qed.
End WithCallables.

End CmpFacts.

(** ** In-memory snapshots *)

Module MemoryFacts.
Import Base Memory SortFacts CmpFacts.

Section WithCallables.
Variable call : fn_id → call_arg → value.

Lemma fill_column_lookup (r : row) (bc : BoundColumn value) :
  fill_column call r bc !! src_accessor bc =
    Some (if is_None (dict_get r (src_accessor bc))
          then get_default call bc r
          else dict_get r (src_accessor bc)).
Proof.
  unfold fill_column, dict_get.
  destruct (r !! src_accessor bc) as [v|] eqn:E; simpl.
  - destruct (is_None v) eqn:Hv; [by rewrite lookup_insert_eq|exact E].
  - by rewrite lookup_insert_eq.
Qed.

Lemma fill_column_keeps (r : row) (bc : BoundColumn value) k v :
  r !! k = Some v → v ≠ VNone → fill_column call r bc !! k = Some v.
Proof.
  intros Hk Hv. unfold fill_column.
  destruct (is_None _) eqn:HN; [|exact Hk].
  destruct (decide (src_accessor bc = k)) as [<-|Hne].
  - unfold dict_get in HN. rewrite Hk in HN. simpl in HN.
    destruct v; done.
  - by rewrite lookup_insert_ne.
Qed.

Lemma fill_column_present (r : row) (bc : BoundColumn value) k :
  is_Some (r !! k) → is_Some (fill_column call r bc !! k).
Proof.
  intros Hk. unfold fill_column.
  destruct (is_None _); [|exact Hk].
  rewrite lookup_insert. case_decide; [by eexists|exact Hk].
Qed.

Lemma fill_column_other (r : row) (bc : BoundColumn value) k :
  src_accessor bc ≠ k → fill_column call r bc !! k = r !! k.
Proof.
  intros Hne. unfold fill_column.
  destruct (is_None _); [|reflexivity]. by rewrite lookup_insert_ne.
Qed.

Lemma fill_row_present cols (r : row) k :
  is_Some (r !! k) → is_Some (fill_row call cols r !! k).
Proof.
  unfold fill_row. revert r.
  induction cols as [|bc rest IH]; intros r Hk; simpl; [exact Hk|].
  by apply IH, fill_column_present.
Qed.

Lemma fill_row_keeps cols (r : row) k v :
  r !! k = Some v → v ≠ VNone → fill_row call cols r !! k = Some v.
Proof.
  unfold fill_row. revert r.
  induction cols as [|bc rest IH]; intros r Hk Hv; simpl; [exact Hk|].
  by apply IH; [apply fill_column_keeps|].
Qed.

Lemma fill_row_other cols (r : row) k :
  Forall (fun bc => src_accessor bc ≠ k) cols →
  fill_row call cols r !! k = r !! k.
Proof.
  unfold fill_row. revert r.
  induction cols as [|bc rest IH]; intros r Hall; simpl; [reflexivity|].
  inversion Hall; subst. rewrite IH by assumption.
  by apply fill_column_other.
Qed.

Lemma fill_row_covers cols (r : row) :
  Forall (fun bc => is_Some (fill_row call cols r !! src_accessor bc)) cols.
Proof.
  unfold fill_row. revert r.
  induction cols as [|bc rest IH]; intros r; simpl; constructor.
  - apply (fill_row_present rest). rewrite fill_column_lookup. by eexists.
  - apply IH.
Qed.

(** The store after the defaulting loop: a record is rewritten once for
    each time the list refers to it. *)
Lemma fill_defaults_lookup cols (snapshot : list loc) (σ : store) (l : loc) :
  fill_defaults call cols snapshot σ !! l =
    Nat.iter (length (filter (fun l' => l' = l) snapshot))
      (fill_row call cols) <$> σ !! l.
Proof.
  unfold fill_defaults. revert σ.
  induction snapshot as [|a rest IH]; intros σ; simpl.
  - by destruct (σ !! l).
  - rewrite IH, filter_cons, lookup_alter.
    destruct (decide (a = l)) as [->|Hne]; simpl; [|reflexivity].
    destruct (σ !! l) as [r|]; simpl; [|reflexivity].
    f_equal. clear. induction (length _) as [|n IHn]; simpl; congruence.
Qed.

Lemma iter_fill_row_covers cols n (r : row) :
  Forall (fun bc => is_Some (Nat.iter (S n) (fill_row call cols) r
                               !! src_accessor bc)) cols.
Proof.
  induction n as [|n IH].
  - apply fill_row_covers.
  - eapply Forall_impl; [exact IH|]. simpl. intros bc Hbc.
    by apply fill_row_present.
Qed.

Lemma iter_fill_row_keeps cols n (r : row) k v :
  r !! k = Some v → v ≠ VNone →
  Nat.iter n (fill_row call cols) r !! k = Some v.
Proof.
  intros Hk Hv. induction n as [|n IH]; simpl; [exact Hk|].
  by apply fill_row_keeps.
Qed.

Lemma iter_fill_row_other cols n (r : row) k :
  Forall (fun bc => src_accessor bc ≠ k) cols →
  Nat.iter n (fill_row call cols) r !! k = r !! k.
Proof.
  intros Hall. induction n as [|n IH]; simpl; [reflexivity|].
  by rewrite fill_row_other.
Qed.

(** The first column that reads an accessor stores its default there when
    the record has nothing or [None] under it, and a default that is not
    [None] is still there at the end of the loop. *)
Lemma fill_row_stores_default pre bc post (r : row) :
  Forall (fun c => src_accessor c ≠ src_accessor bc) pre →
  r !! src_accessor bc = None ∨ r !! src_accessor bc = Some VNone →
  get_default call bc (fill_row call pre r) ≠ VNone →
  fill_row call (pre ++ bc :: post) r !! src_accessor bc
  = Some (get_default call bc (fill_row call pre r)).
Proof.
  intros Hpre Hr Hd. unfold fill_row at 1. rewrite foldl_app. simpl.
  apply (fill_row_keeps post); [|exact Hd].
  fold (fill_row call pre r). rewrite fill_column_lookup.
  assert (is_None (dict_get (fill_row call pre r) (src_accessor bc)) = true)
    as ->; [|reflexivity].
  unfold dict_get. rewrite fill_row_other by exact Hpre.
  by destruct Hr as [-> | ->].
Qed.

Lemma build_snapshot_store (t : MemoryTable) (σ : store) :
  (_build_snapshot call t σ).1 = fill_defaults call (columns t) (_data t) σ.
Proof. unfold _build_snapshot. by destruct (order_by t). Qed.
End WithCallables.

End MemoryFacts.

Module SnapshotTheorems.
Import Base Memory SortFacts CmpFacts MemoryFacts.

Lemma list_sort_ext {A} (c c' : A → A → Z) (l : list A) :
  (∀ x y, c x y = c' x y) → list_sort c l = list_sort c' l.
Proof.
  intros Hc. induction l as [|a t IH]; simpl; [reflexivity|].
  rewrite IH. generalize (list_sort c' t). intros s.
  induction s as [|b s IHs]; simpl; [reflexivity|].
  by rewrite Hc, IHs.
Qed.

Lemma rmprefix_no_prefix (k : string) : has_prefix k = false → rmprefix k = k.
Proof.
  destruct k as [|a s]; [reflexivity|].
  destruct a as [[] [] [] [] [] [] [] []]; simpl; congruence.
Qed.

Lemma instructions_map (keys : list string) :
  instructions keys = map (fun o => (rmprefix o, has_prefix o)) keys.
Proof.
  induction keys as [|o rest IH]; [reflexivity|].
  by rewrite instructions_cons, IH.
Qed.

Section WithCallables.
Variable call : fn_id → call_arg → value.

(** C10: [_build_snapshot] copies only the list, so the records it fills
    are the caller's own.  After the call, a record the source list
    refers to has been rewritten by the defaulting loop (once for each
    reference to it): it has a value under the source accessor of every
    column, the values it had that were not [None] are untouched, and
    what the loop stores under a column's accessor when the record has
    nothing or [None] there is the column's default; the returned
    snapshot holds the same references as the source list. *)
Theorem build_snapshot_mutates_source (t : MemoryTable) (σ : store)
    (l : loc) (r : row) :
  l ∈ _data t → σ !! l = Some r →
  let σ' := (_build_snapshot call t σ).1 in
  ∃ r', σ' !! l = Some r'
    ∧ r' = Nat.iter (length (filter (fun l' => l' = l) (_data t)))
             (fill_row call (columns t)) r
    ∧ Forall (fun bc => is_Some (r' !! src_accessor bc)) (columns t)
    ∧ (∀ k v, r !! k = Some v → v ≠ VNone → r' !! k = Some v)
    ∧ (∀ bc r0, fill_column call r0 bc !! src_accessor bc
                = Some (if is_None (dict_get r0 (src_accessor bc))
                        then get_default call bc r0
                        else dict_get r0 (src_accessor bc)))
    ∧ (∀ snapshot, (_build_snapshot call t σ).2 = Ok snapshot →
                   snapshot ≡ₚ _data t).
Proof.
  intros Hl Hr σ'. subst σ'.
  rewrite build_snapshot_store, fill_defaults_lookup, Hr. simpl.
  eexists. split; [reflexivity|]. split; [reflexivity|].
  assert (∃ n, length (filter (fun l' => l' = l) (_data t)) = S n) as [n Hn].
  { destruct (filter (fun l' => l' = l) (_data t)) as [|x xs] eqn:E.
    - exfalso. eapply (filter_nil_not_elem_of (fun l' => l' = l)); eauto.
    - by eexists. }
  split; [rewrite Hn; apply iter_fill_row_covers|].
  split; [intros k v; apply iter_fill_row_keeps|].
  split; [intros bc r0; apply fill_column_lookup|].
  intros snapshot. unfold _build_snapshot.
  destruct (order_by t) as [|o rest]; simpl.
  - by intros [= <-].
  - destruct (_resolve_sort_directions _ _) as [actual|e]; simpl; [|done].
    destruct (_col_names_to_src_names _ _) as [keys|e]; simpl; [|done].
    intros [= <-]. apply list_sort_perm.
Qed.

(** C2: when an ordering is set and resolves to the keys [keys], the
    snapshot is the stable multi-key sort of the source list over the
    records as they are after defaulting: it is a permutation of the
    list, sorted under [_cmp]; records that compare equal on every key
    keep their order; a key with a leading hyphen has its comparison
    negated; the first key on which two records differ decides.  The
    object a record is compared by is what the record holds under the key
    ([None] when it holds nothing), or what the call returns when that is a
    callable; objects are compared by their natural order (integers by
    value, strings character by character, [None] below everything, equal
    only when the same).  The records compared are the defaulted ones: a
    value that was not [None] is compared as it is, and where the record
    had nothing or [None] under a column's accessor the column's default is
    compared in its place. *)
Theorem build_snapshot_stable_multi_key_sort (t : MemoryTable) (σ : store)
    (keys : list string) :
  order_by t ≠ [] →
  (actual ← _resolve_sort_directions (columns t) (order_by t);
   _col_names_to_src_names (columns t) actual) = Ok keys →
  let σ' := fill_defaults call (columns t) (_data t) σ in
  let c := fun a b =>
    _cmp call (instructions keys) (deref σ' a) (deref σ' b) in
  ∃ snapshot,
    _build_snapshot call t σ = (σ', Ok snapshot)
    ∧ snapshot ≡ₚ _data t
    ∧ StronglySorted (fun a b => c a b ≤ 0) snapshot
    ∧ (∀ a, filter (fun b => c a b = 0) snapshot
            = filter (fun b => c a b = 0) (_data t))
    ∧ instructions keys = map (fun o => (rmprefix o, has_prefix o)) keys
    ∧ (∀ a b, c a b ≠ 0 →
         ∃ before k (reverse : bool) after,
           instructions keys = (before ++ (k, reverse) :: after)%list
           ∧ Forall (fun kr => key_cmp call kr.1 (deref σ' a) (deref σ' b) = 0)
               before
           ∧ key_cmp call k (deref σ' a) (deref σ' b) ≠ 0
           ∧ c a b = if reverse
                     then - key_cmp call k (deref σ' a) (deref σ' b)
                     else key_cmp call k (deref σ' a) (deref σ' b))
    ∧ (∀ a b, c a b = 0 ↔
         Forall (fun kr => key_value call kr.1 (deref σ' a)
                           = key_value call kr.1 (deref σ' b))
           (instructions keys))
    ∧ (∀ k x y, key_cmp call k x y
                = cmp (key_value call k x) (key_value call k y))
    ∧ (∀ k (x : row), key_value call k x
              = match x !! k with
                | Some (VFunc f) => call f (ADict x)
                | Some v => v
                | None => VNone
                end)
    ∧ ((∀ v w, cmp v w = 0 ↔ v = w)
       ∧ (∀ m n, cmp (VInt m) (VInt n) < 0 ↔ m < n)
       ∧ (∀ s u, cmp (VStr s) (VStr u) < 0 ↔ String_as_OT.lt s u)
       ∧ (∀ v, v ≠ VNone → cmp VNone v < 0))
    ∧ (∀ l r, l ∈ _data t → σ !! l = Some r →
         σ' !! l = Some (Nat.iter (length (filter (fun l' => l' = l) (_data t)))
                           (fill_row call (columns t)) r)
         ∧ Forall (fun bc => is_Some (deref σ' l !! src_accessor bc))
             (columns t)
         ∧ (∀ k v, r !! k = Some v → v ≠ VNone → deref σ' l !! k = Some v)
         ∧ (∀ pre bc post,
              columns t = (pre ++ bc :: post)%list →
              Forall (fun c => src_accessor c ≠ src_accessor bc) pre →
              r !! src_accessor bc = None ∨ r !! src_accessor bc = Some VNone →
              get_default call bc (fill_row call pre r) ≠ VNone →
              deref σ' l !! src_accessor bc
              = Some (get_default call bc (fill_row call pre r)))).
Proof.
  intros Hord Hkeys σ' c.
  exists (sort_table call (deref σ') (_data t) keys).
  split.
  { unfold _build_snapshot. destruct (order_by t) as [|o rest]; [done|].
    fold σ'. f_equal.
    destruct (_resolve_sort_directions _ _) as [actual|e]; simpl in *; [|done].
    by rewrite Hkeys. }
  split; [apply list_sort_perm|].
  split.
  { apply (list_sort_sorted c).
    - intros x y. apply _cmp_antisym.
    - intros x y z. apply _cmp_trans. }
  split.
  { intros a. apply (list_sort_stable c).
    intros x a' b. apply _cmp_eq_trans. }
  split; [apply instructions_map|].
  split; [intros a b; apply _cmp_lexicographic|].
  split; [intros a b; apply _cmp_zero|].
  split; [reflexivity|].
  split.
  { intros k x. unfold key_value, invoke, dict_get.
    by destruct (x !! k) as [[]|]. }
  split.
  { split; [|split; [|split]].
    - intros v w. split; [apply cmp_eq|intros ->; apply cmp_refl].
    - intros m n. simpl. by rewrite cmp_of_neg, Z.compare_lt_iff.
    - intros s u. simpl. by rewrite cmp_of_neg.
    - intros v Hv. destruct v; simpl; (done || lia). }
  intros l r Hl Hr. unfold deref. subst σ'.
  rewrite fill_defaults_lookup, Hr. simpl.
  destruct (filter (fun l' => l' = l) (_data t)) as [|x xs] eqn:E.
  { exfalso. eapply (filter_nil_not_elem_of (fun l' => l' = l)); eauto. }
  change (length (x :: xs)) with (S (length xs)).
  split; [reflexivity|].
  split; [apply iter_fill_row_covers|].
  split; [intros k v; apply iter_fill_row_keeps|].
  intros pre bc post Hcols Hpre Hnone Hd.
  rewrite Nat.iter_succ_r. apply iter_fill_row_keeps; [|exact Hd].
  rewrite Hcols. by apply fill_row_stores_default.
Qed.

(** C8, amended: for a single key, sorting by its descending form gives
    the reverse of sorting by its ascending form whenever no two
    different records of the list have the same value under the key.
    (Records that tie keep their original order in both sorts.) *)
Theorem sort_descending_reverses {A} (get : A → row) (data : list A)
    (k : string) :
  has_prefix k = false →
  (∀ a b, a ∈ data → b ∈ data →
     key_value call k (get a) = key_value call k (get b) → a = b) →
  sort_table call get data [String "-" k]
  = reverse (sort_table call get data [k]).
Proof.
  intros Hk Hdistinct. unfold sort_table.
  rewrite !instructions_cons. simpl instructions.
  change (has_prefix (String "-" k)) with true.
  change (rmprefix (String "-" k)) with k.
  rewrite Hk, (rmprefix_no_prefix k Hk).
  rewrite <- (list_sort_negated
                (fun a b => _cmp call [(k, false)] (get a) (get b))).
  - apply list_sort_ext. intros x y. rewrite !_cmp_cons. simpl.
    by case_decide.
  - intros x y. apply _cmp_antisym.
  - intros x y z. apply _cmp_trans.
  - intros x y Hx Hy Hc. apply Hdistinct; auto.
    apply _cmp_zero in Hc. by inversion Hc.
Qed.
End WithCallables.

(** C10 at a concrete table: the record lacks ['b'], and holds the
    column's default under ['b'] once the snapshot has been built. *)
Lemma build_snapshot_mutates_source_witness :
  0%nat ∈ _data Samples.sparse_table
  ∧ Samples.sparse_store !! 0%nat = Some (<["a" := VInt 1]> ∅)
  ∧ ∃ r', (_build_snapshot Samples.no_call Samples.sparse_table
             Samples.sparse_store).1 !! 0%nat = Some r'
          ∧ r' !! "b" = Some (VStr "x").
Proof.
  assert (H1 : 0%nat ∈ _data Samples.sparse_table) by (simpl; apply list_elem_of_here).
  assert (H2 : Samples.sparse_store !! 0%nat = Some (<["a" := VInt 1]> ∅))
    by reflexivity.
  split; [exact H1|]. split; [exact H2|].
  destruct (build_snapshot_mutates_source Samples.no_call
              Samples.sparse_table Samples.sparse_store 0%nat _ H1 H2)
    as (r' & Hr' & Heq & _).
  exists r'. split; [exact Hr'|]. rewrite Heq. reflexivity.
Defined.

(** The snapshot of the test cities ordered by population, descending. *)
Example build_snapshot_by_population :
  (_build_snapshot Samples.no_call Samples.population_table
     Samples.population_store).2 = Ok [3%nat; 1%nat; 2%nat].
Proof. reflexivity. Qed.

(** The first record has no rank and is compared by the column's default,
    5; the second has rank 1 and therefore comes first. *)
Lemma build_snapshot_stable_multi_key_sort_witness :
  order_by MoreSamples.ranked_table ≠ []
  ∧ (actual ← _resolve_sort_directions (columns MoreSamples.ranked_table)
                (order_by MoreSamples.ranked_table);
     _col_names_to_src_names (columns MoreSamples.ranked_table) actual)
    = Ok ["rank"]
  ∧ ∃ snapshot,
      (_build_snapshot Samples.no_call MoreSamples.ranked_table
         MoreSamples.ranked_store).2 = Ok snapshot
      ∧ snapshot = [2%nat; 1%nat]
      ∧ deref (_build_snapshot Samples.no_call MoreSamples.ranked_table
                 MoreSamples.ranked_store).1 1%nat !! "rank" = Some (VInt 5).
Proof.
  assert (H1 : order_by MoreSamples.ranked_table ≠ []) by discriminate.
  assert (H2 : (actual ← _resolve_sort_directions
                            (columns MoreSamples.ranked_table)
                            (order_by MoreSamples.ranked_table);
                _col_names_to_src_names (columns MoreSamples.ranked_table)
                  actual) = Ok ["rank"]) by reflexivity.
  split; [exact H1|]. split; [exact H2|].
  destruct (build_snapshot_stable_multi_key_sort Samples.no_call
              MoreSamples.ranked_table MoreSamples.ranked_store
              ["rank"] H1 H2) as (snapshot & Hb & _).
  exists snapshot. rewrite Hb. simpl. split; [reflexivity|].
  assert (Hc : (_build_snapshot Samples.no_call MoreSamples.ranked_table
                  MoreSamples.ranked_store).2 = Ok [2%nat; 1%nat])
    by reflexivity.
  rewrite Hb in Hc. simpl in Hc. injection Hc as ->.
  split; reflexivity.
Defined.

(** C8, as stated, fails when two records tie on the key: both sorts keep
    the tied records in their original order, so the descending sort is
    not the reverse of the ascending one. *)
Lemma tied_records_are_not_reversed :
  sort_table Samples.no_call Samples.tied [1%nat; 2%nat] ["k"]
  = [1%nat; 2%nat]
  ∧ sort_table Samples.no_call Samples.tied [1%nat; 2%nat] ["-k"]
    = [1%nat; 2%nat]
  ∧ sort_table Samples.no_call Samples.tied [1%nat; 2%nat] ["-k"]
    ≠ reverse (sort_table Samples.no_call Samples.tied [1%nat; 2%nat] ["k"]).
Proof. split; [reflexivity|]. split; [reflexivity|discriminate]. Qed.

Lemma sort_descending_reverses_witness :
  has_prefix "population" = false
  ∧ sort_table Samples.no_call Samples.populated [1%nat; 2%nat; 3%nat]
      ["-population"]
    = reverse (sort_table Samples.no_call Samples.populated
                 [1%nat; 2%nat; 3%nat] ["population"]).
Proof.
  split; [reflexivity|].
  apply (sort_descending_reverses Samples.no_call Samples.populated
           [1%nat; 2%nat; 3%nat] "population"); [reflexivity|].
  intros a b Ha Hb Hk.
  repeat (apply elem_of_cons in Ha as [->|Ha]);
    [| | |by apply elem_of_nil in Ha];
    repeat (apply elem_of_cons in Hb as [->|Hb]);
    try (by apply elem_of_nil in Hb);
    try reflexivity; vm_compute in Hk; discriminate Hk.
Defined.

End SnapshotTheorems.

(** ** Ordering requests *)

Module OrderingFacts.
Import Base.

Lemma has_prefix_spec (s : string) :
  has_prefix s = true ↔ ∃ rest, s = String "-" rest.
Proof.
  split.
  - destruct s as [|a rest]; [discriminate|].
    destruct a as [[] [] [] [] [] [] [] []]; simpl; try discriminate.
    intros _. by eexists.
  - by intros [rest ->].
Qed.

Lemma no_prefix (s : string) :
  has_prefix s = false → rmprefix s = s ∧ toggleprefix s = String "-" s.
Proof.
  destruct s as [|a rest]; [done|].
  destruct a as [[] [] [] [] [] [] [] []]; simpl; done.
Qed.

Lemma toggleprefix_flips (inst : string) :
  has_prefix (rmprefix inst) = false →
  has_prefix (toggleprefix inst) = negb (has_prefix inst)
  ∧ rmprefix (toggleprefix inst) = rmprefix inst.
Proof.
  destruct (has_prefix inst) eqn:E.
  - apply has_prefix_spec in E as [rest ->]. simpl. intros Hr.
    split; [exact Hr|]. by apply no_prefix.
  - destruct (no_prefix inst E) as [-> ->]. done.
Qed.

Lemma mapM_res_Forall2 {A B} (f : A → res B) (P : A → B → Prop) (l : list A) :
  Forall (fun a => ∃ b, f a = Ok b ∧ P a b) l →
  ∃ bs, mapM_res f l = Ok bs ∧ Forall2 P l bs.
Proof.
  induction 1 as [|a t (b & Hb & HP) _ (bs & Hbs & HF)]; simpl.
  - exists []. by split.
  - exists (b :: bs). rewrite Hb, Hbs. simpl. split; [done|by constructor].
Qed.









End OrderingFacts.

Module OrderingTheorems.
Import Base OrderingFacts.

(** C4, as stated, fails on the table of [test_sort]: the column is
    declared with [direction='desc'], the token carries a hyphen, and the
    key is sorted ascending (Amsterdam before Berlin), as the test
    expects; the rule as the claim words it would keep the hyphen. *)
Lemma explicit_hyphen_on_descending_column :
  Forall (fun bc => Columns._direction (column bc) = Columns.DESC)
    Samples.cities_columns
  ∧ has_prefix "-name" = true
  ∧ _resolve_sort_directions Samples.cities_columns ["-name"] = Ok ["name"]
  ∧ sorts_descending "name" = false
  ∧ spec_resolve_sort_directions Samples.cities_columns ["-name"]
    = Ok ["-name"]
  ∧ (Memory._build_snapshot Samples.no_call (Samples.cities_table ["-name"])
       Samples.cities_store).2 = Ok [2%nat; 1%nat]
  ∧ Samples.test_sort_expected "-name" = [2%nat; 1%nat].
Proof. repeat split; try reflexivity. by repeat constructor. Qed.

(** The rule as the specification words it does not reproduce
    [test_sort]: with the hyphen kept, Berlin comes before Amsterdam. *)
Lemma spec_direction_contradicts_test_sort :
  (keys ← spec_resolve_sort_directions Samples.cities_columns ["-name"];
   srcs ← _col_names_to_src_names Samples.cities_columns keys;
   Ok (Memory.sort_table Samples.no_call (Memory.deref Samples.cities_store)
         [1%nat; 2%nat] srcs))
  = Ok [1%nat; 2%nat]
  ∧ Samples.test_sort_expected "-name" ≠ [1%nat; 2%nat].
Proof. split; [reflexivity|discriminate]. Qed.

(** The model of [_resolve_sort_directions] reproduces both orders of
    [test_sort]. *)
Lemma resolve_sort_directions_test_sort :
  (Memory._build_snapshot Samples.no_call (Samples.cities_table ["name"])
     Samples.cities_store).2 = Ok (Samples.test_sort_expected "name")
  ∧ (Memory._build_snapshot Samples.no_call (Samples.cities_table ["-name"])
       Samples.cities_store).2 = Ok (Samples.test_sort_expected "-name").
Proof. split; reflexivity. Qed.

(** C4, amended: for every surviving key the effective direction is the
    column's own direction when the token carries no hyphen, and the
    opposite of the column's own direction when it carries one: the hyphen
    asks for the reverse of the column's normal order.  On a column whose
    direction is descending, a token with a hyphen sorts ascending. *)
Theorem effective_direction {D} (cols : list (BoundColumn D))
    (order_by : list string) :
  Forall (fun inst => has_prefix (rmprefix inst) = false
                      ∧ ∃ bc, lookup_column cols (rmprefix inst) = Ok bc)
    order_by →
  ∃ resolved,
    _resolve_sort_directions cols order_by = Ok resolved
    ∧ Forall2 (fun inst r =>
         ∃ bc, lookup_column cols (rmprefix inst) = Ok bc
               ∧ rmprefix r = rmprefix inst
               ∧ sorts_descending r
                 = xorb (has_prefix inst)
                     (bool_decide (Columns._direction (column bc) = Columns.DESC)))
        order_by resolved.
Proof.
  intros Hall. apply mapM_res_Forall2.
  eapply Forall_impl; [exact Hall|]. simpl.
  intros inst (Hp & bc & Hbc). rewrite Hbc. simpl.
  eexists. split; [reflexivity|]. exists bc. split; [reflexivity|].
  unfold sorts_descending.
  destruct (bool_decide _).
  - destruct (toggleprefix_flips inst Hp) as [-> ->].
    split; [reflexivity|]. by destruct (has_prefix inst).
  - split; [reflexivity|]. by destruct (has_prefix inst).
Qed.

Lemma effective_direction_witness :
  Forall (fun inst => has_prefix (rmprefix inst) = false
            ∧ ∃ bc, lookup_column Samples.cities_columns (rmprefix inst) = Ok bc)
    ["-name"; "name"]
  ∧ ∃ resolved,
      _resolve_sort_directions Samples.cities_columns ["-name"; "name"]
      = Ok resolved
      ∧ length resolved = 2%nat.
Proof.
  assert (H : Forall (fun inst => has_prefix (rmprefix inst) = false
            ∧ ∃ bc, lookup_column Samples.cities_columns (rmprefix inst) = Ok bc)
            ["-name"; "name"]).
  { repeat constructor; simpl; eexists; reflexivity. }
  split; [exact H|].
  destruct (effective_direction Samples.cities_columns ["-name"; "name"] H)
    as (resolved & Hr & HF).
  exists resolved. split; [exact Hr|].
  symmetry. exact (Forall2_length _ _ _ HF).
Defined.


Section ModelTable.
Import Models.
Variable field_error : string → bool.
Variable policy : bool.


End ModelTable.

End OrderingTheorems.

(** ** Accessor resolution on model instances *)

Module ResolutionTheorems.
Import Base Models.

Lemma traverse_follow (accessor : string) (before rest : list string)
    (data current : pyobj) :
  follow before data = Some current →
  traverse accessor (before ++ rest) data = traverse accessor rest current.
Proof.
  revert data. induction before as [|bit before IH]; intros data; simpl.
  - by intros [= ->].
  - destruct (getattr data bit) as [v|]; [|done].
    fold (resolved v). destruct (is_None (resolved v)); [done|]. apply IH.
Qed.

(** Resolutions of the test suite. *)
Example render_capital_name_of_germany :
  _default_render Samples.germany Samples.capital_name
  = Ok (Samples.py_str "Berlin").
Proof. reflexivity. Qed.

Example render_method_is_called :
  _default_render Samples.germany
    (mkBound "example_domain" (Samples.model_column None Samples.no_default))
  = Ok (Samples.py_str "example.de").
Proof. reflexivity. Qed.

Example render_default_for_null :
  _default_render Samples.germany Samples.system
  = Ok (Samples.py_str "republic").
Proof. reflexivity. Qed.

Example render_invalid_accessor :
  _default_render Samples.austria Samples.made_up
  = Raise (ValueError
             "Could not resolve something-i-made-up from something-i-made-up").
Proof. reflexivity. Qed.

Example render_invalid_after_relation :
  _default_render Samples.germany Samples.invalid
  = Raise (ValueError "Could not resolve invalid from capital__invalid").
Proof. reflexivity. Qed.

(** C1: the segments of the accessor path are looked up in order.  When
    the walk has come through the segments [before] to [current]:
    if [bit] is not an attribute of [current], resolution raises the
    error that names [bit] and the whole path; if it is one and its value
    is [None], the walk stops there, the segments [after] are not looked
    up, and the result is the column's default when it has one and [None]
    when it has none, without raising; a last segment with a value is
    returned as it is; and resolution is a function of the record and the
    column, so repeated calls agree. *)
Theorem accessor_resolution (data : pyobj) (bc : BoundColumn default_obj)
    (before after : list string) (bit : string) (current : pyobj) :
  split_dunder EmptyString (src_accessor bc) = (before ++ bit :: after)%list →
  follow before data = Some current →
  (getattr current bit = None →
     _default_render data bc
     = Raise (ValueError ("Could not resolve " ++ bit ++ " from "
                          ++ src_accessor bc)))
  ∧ (∀ v, getattr current bit = Some v → is_None (resolved v) = true →
       _default_render data bc
       = Ok (if default_is_not_None (Columns.default (column bc))
             then get_default bc data else resolved v)
       ∧ (default_is_not_None (Columns.default (column bc)) = false →
          ∃ none, _default_render data bc = Ok none ∧ is_None none = true))
  ∧ (∀ v, after = [] → getattr current bit = Some v →
       is_None (resolved v) = false →
       _default_render data bc = Ok (resolved v))
  ∧ (∀ r1 r2, _default_render data bc = r1 → _default_render data bc = r2 →
       r1 = r2).
Proof.
  intros Hbits Hfollow. unfold _default_render. rewrite Hbits.
  rewrite (traverse_follow _ _ _ _ _ Hfollow). simpl.
  split; [intros ->; reflexivity|].
  split.
  { intros v -> HN. fold (resolved v). rewrite HN. simpl. rewrite HN.
    split.
    - by destruct (default_is_not_None _).
    - intros ->. by eexists. }
  split.
  { intros v -> -> HN. fold (resolved v). rewrite HN. simpl. by rewrite HN. }
  congruence.
Qed.

(** Austria has no capital: [capital__name] stops at [capital] and,
    without a default, resolves to [None]. *)
Lemma accessor_resolution_witness :
  split_dunder EmptyString (src_accessor Samples.capital_name)
    = ([] ++ "capital" :: ["name"])%list
  ∧ follow [] Samples.austria = Some Samples.austria
  ∧ _default_render Samples.austria Samples.capital_name = Ok None_.
Proof.
  assert (H1 : split_dunder EmptyString (src_accessor Samples.capital_name)
               = ([] ++ "capital" :: ["name"])%list) by reflexivity.
  assert (H2 : follow [] Samples.austria = Some Samples.austria) by reflexivity.
  split; [exact H1|]. split; [exact H2|].
  destruct (accessor_resolution Samples.austria Samples.capital_name
              [] ["name"] "capital" Samples.austria H1 H2) as (_ & Hnone & _).
  destruct (Hnone None_) as [Hr _]; [reflexivity..|]. exact Hr.
Defined.

End ResolutionTheorems.

(** ** Registry assembly *)

Module RegistryFacts.
Import Base Models.

Lemma filter_ext_in {A} (P Q : A → Prop) `{!∀ x, Decision (P x)}
    `{!∀ x, Decision (Q x)} (l : list A) :
  (∀ x, x ∈ l → (P x ↔ Q x)) → filter P l = filter Q l.
Proof.
  induction l as [|a t IH]; intros Hext; [reflexivity|].
  rewrite !filter_cons, IH by (intros x Hx; apply Hext; by right).
  pose proof (Hext a (list_elem_of_here _ _)).
  destruct (decide (P a)), (decide (Q a)); tauto.
Qed.

Section Dict.
Context {V : Type}.
Implicit Types (d other : list (string * V)) (k : string) (v : V).

Lemma od_keys_set k v d :
  od_keys (od_set k v d)
  = if bool_decide (k ∈ od_keys d) then od_keys d
    else (od_keys d ++ [k])%list.
Proof.
  unfold od_keys. induction d as [|[k' v'] t IH]; simpl; [reflexivity|].
  destruct (decide (k' = k)) as [->|Hne].
  - rewrite !bool_decide_true; [reflexivity|by left|reflexivity].
  - rewrite (bool_decide_false (k' = k)) by done. simpl. rewrite IH.
    destruct (decide (k ∈ map fst t)) as [Hin|Hnin].
    + rewrite !bool_decide_true; [reflexivity|by right|done].
    + rewrite !bool_decide_false; [reflexivity| |done].
      rewrite elem_of_cons. naive_solver.
Qed.

Lemma assoc_od_set k k' v d :
  assoc k' (od_set k v d) = if bool_decide (k = k') then Some v else assoc k' d.
Proof.
  induction d as [|[k0 v0] t IH]; simpl.
  - by destruct (decide (k = k')); [rewrite !bool_decide_true
                                    | rewrite !bool_decide_false].
  - destruct (decide (k0 = k)) as [->|Hne].
    + rewrite (bool_decide_true (k = k)) by done. simpl.
      by destruct (bool_decide (k = k')).
    + rewrite (bool_decide_false (k0 = k)) by done. simpl. rewrite IH.
      destruct (decide (k0 = k')) as [->|Hne'].
      * rewrite (bool_decide_true (k' = k')) by done.
        by rewrite (bool_decide_false (k = k')) by done.
      * by rewrite (bool_decide_false (k0 = k')) by done.
Qed.

Lemma assoc_Some_keys k d : is_Some (assoc k d) ↔ k ∈ od_keys d.
Proof.
  unfold od_keys. induction d as [|[k0 v0] t IH]; simpl.
  - rewrite elem_of_nil. split; [by intros [? ?]|done].
  - rewrite elem_of_cons. destruct (decide (k0 = k)) as [->|Hne].
    + rewrite bool_decide_true by done. naive_solver.
    + rewrite bool_decide_false by done. rewrite IH. naive_solver.
Qed.

Lemma od_update_keys d other :
  NoDup (map fst other) →
  od_keys (od_update d other)
  = (od_keys d ++ filter (fun k => k ∉ od_keys d) (map fst other))%list.
Proof.
  unfold od_update. revert d.
  induction other as [|[k v] t IH]; intros d Hnd; simpl.
  - by rewrite filter_nil, app_nil_r.
  - apply NoDup_cons in Hnd as [Hk Hnd].
    rewrite IH by exact Hnd. rewrite od_keys_set, filter_cons.
    destruct (decide (k ∈ od_keys d)) as [Hin|Hnin].
    + rewrite bool_decide_true by done.
      by rewrite decide_False by (intros H; by apply H).
    + rewrite bool_decide_false by done.
      rewrite decide_True by done.
      rewrite <- app_assoc. simpl. do 2 f_equal.
      apply filter_ext_in. intros x Hx.
      rewrite elem_of_app, list_elem_of_singleton.
      split; [tauto|]. intros H [?| ->]; [tauto|done].
Qed.

Lemma od_update_assoc_notin d other k :
  k ∉ map fst other → assoc k (od_update d other) = assoc k d.
Proof.
  unfold od_update. revert d.
  induction other as [|[k0 v0] t IH]; intros d Hk; simpl; [reflexivity|].
  simpl in Hk. apply not_elem_of_cons in Hk as [Hne Hk].
  rewrite IH by exact Hk. rewrite assoc_od_set.
  by rewrite bool_decide_false by done.
Qed.

Lemma od_update_assoc_in d other k v :
  NoDup (map fst other) → (k, v) ∈ other →
  assoc k (od_update d other) = Some v.
Proof.
  revert d.
  induction other as [|[k0 v0] t IH]; intros d Hnd Hin.
  - by apply elem_of_nil in Hin.
  - simpl in Hnd. apply NoDup_cons in Hnd as [Hk Hnd].
    change (od_update d ((k0, v0) :: t)) with (od_update (od_set k0 v0 d) t).
    apply elem_of_cons in Hin as [[= -> ->]|Hin].
    + rewrite od_update_assoc_notin by exact Hk.
      rewrite assoc_od_set. by rewrite bool_decide_true.
    + by apply IH.
Qed.

Lemma od_update_key_elem d other k :
  k ∈ od_keys (od_update d other) ↔ k ∈ od_keys d ∨ k ∈ map fst other.
Proof.
  unfold od_update. revert d.
  induction other as [|[k0 v0] t IH]; intros d; simpl.
  - rewrite elem_of_nil. tauto.
  - rewrite IH, od_keys_set, elem_of_cons. simpl.
    case_bool_decide; [naive_solver|].
    rewrite elem_of_app, list_elem_of_singleton. naive_solver.
Qed.
End Dict.

Lemma assoc_in_nodup {V} (l : list (string * V)) k v :
  NoDup (map fst l) → (k, v) ∈ l → assoc k l = Some v.
Proof.
  induction l as [|[k0 v0] t IH]; intros Hnd Hin; simpl.
  - by apply elem_of_nil in Hin.
  - simpl in Hnd. apply NoDup_cons in Hnd as [Hk Hnd].
    apply elem_of_cons in Hin as [[= -> ->]|Hin].
    + by rewrite bool_decide_true.
    + rewrite bool_decide_false; [by apply IH|].
      intros ->. apply Hk. apply list_elem_of_fmap. by exists (k, v).
Qed.

Lemma not_excluded_iff (exclude : option (list string)) (c : string) :
  negb (truthy exclude) || (truthy exclude && negb (is_in c exclude)) = true
  ↔ c ∉ names_of exclude.
Proof.
  unfold is_in. destruct exclude as [[|x l]|]; simpl.
  - rewrite elem_of_nil. tauto.
  - rewrite negb_true_iff, bool_decide_eq_false. tauto.
  - rewrite elem_of_nil. tauto.
Qed.

Lemma excluded_skipped (columns exclude : option (list string)) (n : string) :
  n ∈ names_of exclude → skipped columns exclude n = true.
Proof.
  intros Hin. unfold skipped, is_in.
  rewrite (bool_decide_true (n ∈ names_of exclude)) by done.
  destruct exclude as [[|x l]|]; simpl in *;
    [by apply elem_of_nil in Hin| |by apply elem_of_nil in Hin].
  by rewrite orb_true_r.
Qed.

Lemma included_not_skipped (columns exclude : option (list string)) (n : string) :
  n ∈ names_of columns → n ∉ names_of exclude →
  skipped columns exclude n = false.
Proof.
  intros Hin Hex. unfold skipped, is_in.
  rewrite (bool_decide_true (n ∈ names_of columns)) by done.
  rewrite (bool_decide_false (n ∈ names_of exclude)) by done.
  by rewrite !andb_false_r.
Qed.

Lemma field_list_names (fs : list Field) columns exclude (n : nat) :
  map fst (field_list fs columns exclude n).1
  = filter (fun name => skipped columns exclude name = false) (map f_name fs).
Proof.
  revert n. induction fs as [|f rest IH]; intros n; simpl; [reflexivity|].
  rewrite filter_cons.
  destruct (skipped columns exclude (f_name f)) eqn:E.
  - rewrite decide_False by done. apply IH.
  - rewrite decide_True by done.
    unfold Columns.__init__. simpl.
    specialize (IH (S n)).
    destruct (field_list rest columns exclude (S n)) as [l final].
    simpl in *. by rewrite IH.
Qed.

(** The registry of a table class with a model and an include list. *)
Lemma base_columns_included (opts : ModelTableOptions) (m : Model)
    declared (counter : nat) :
  model opts = Some m → truthy (opt_columns opts) = true →
  ∃ fl,
    map fst fl
    = filter (fun name => skipped (opt_columns opts) (opt_exclude opts) name = false)
        (map f_name (fields m ++ many_to_many m))
    ∧ (base_columns opts declared counter).1
      = od_update
          (od_of_list
             (map (fun c => (c, assoc c (od_of_list fl)))
                (filter (fun c => c ∉ names_of (opt_exclude opts))
                   (names_of (opt_columns opts)))))
          (map (fun kv => (kv.1, Some kv.2)) declared).
Proof.
  intros Hm Hc. unfold base_columns, columns_for_model. rewrite Hm, Hc.
  pose proof (field_list_names (fields m ++ many_to_many m)
                (opt_columns opts) (opt_exclude opts) counter) as Hfl.
  destruct (field_list _ _ _ _) as [fl c']. simpl in *.
  exists fl. split; [exact Hfl|]. do 3 f_equal.
  apply filter_ext_in. intros c _. apply not_excluded_iff.
Qed.

Lemma base_columns_all_fields (opts : ModelTableOptions) (m : Model)
    declared (counter : nat) :
  model opts = Some m → truthy (opt_columns opts) = false →
  ∃ fl,
    map fst fl
    = filter (fun name => skipped (opt_columns opts) (opt_exclude opts) name = false)
        (map f_name (fields m ++ many_to_many m))
    ∧ (base_columns opts declared counter).1
      = od_update (map (fun kv => (kv.1, Some kv.2)) (od_of_list fl))
          (map (fun kv => (kv.1, Some kv.2)) declared).
Proof.
  intros Hm Hc. unfold base_columns, columns_for_model. rewrite Hm, Hc.
  pose proof (field_list_names (fields m ++ many_to_many m)
                (opt_columns opts) (opt_exclude opts) counter) as Hfl.
  destruct (field_list _ _ _ _) as [fl c']. simpl in *.
  exists fl. by split.
Qed.

Lemma map_fst_some {V} (l : list (string * V)) :
  map fst (map (fun kv => (kv.1, Some kv.2)) l) = map fst l.
Proof. induction l as [|[k v] t IH]; simpl; congruence. Qed.

Lemma od_of_list_keys_nodup {V} (l : list (string * V)) :
  NoDup (map fst l) → od_keys (od_of_list l) = map fst l.
Proof.
  intros Hnd. unfold od_of_list. rewrite od_update_keys by exact Hnd.
  simpl. clear Hnd. induction (map fst l) as [|k t IH]; [reflexivity|].
  rewrite filter_cons_True by apply not_elem_of_nil. by rewrite IH.
Qed.

End RegistryFacts.

Module RegistryTheorems.
Import Base Models RegistryFacts.

(** Registries of the test suite ([test_autogen_basic],
    [test_columns_custom_order]). *)
Example registry_autogen_basic :
  od_keys (base_columns (mkOptions (Some Samples.Country) None None) [] 0%nat).1
  = ["id"; "name"; "population"; "capital"; "tld"; "system"; "null"; "null2"].
Proof. reflexivity. Qed.

Example registry_exclude_tld :
  od_keys (base_columns (mkOptions (Some Samples.Country) None (Some ["tld"]))
             Samples.declared_capital_projected 2%nat).1
  = ["id"; "name"; "population"; "capital"; "system"; "null"; "null2";
     "projected"].
Proof. reflexivity. Qed.

Example registry_custom_order :
  od_keys (base_columns
             (mkOptions (Some Samples.Country)
                (Some ["system"; "population"; "foo"; "tld"]) None)
             Samples.declared_foo 1%nat).1
  = ["system"; "population"; "foo"; "tld"].
Proof. reflexivity. Qed.

(** A name of the include list that is neither a field nor a declared
    column stays in the registry, bound to no column. *)
Example unknown_include_name_kept :
  od_keys (base_columns
             (mkOptions (Some Samples.Country) (Some ["capital"; "nonexistent"])
                None)
             Samples.declared_capital_projected 2%nat).1
  = ["capital"; "nonexistent"; "projected"]
  ∧ assoc "nonexistent"
      (base_columns
         (mkOptions (Some Samples.Country) (Some ["capital"; "nonexistent"])
            None)
         Samples.declared_capital_projected 2%nat).1
    = Some None.
Proof. split; reflexivity. Qed.

(** C5, as stated, fails on the third table of [test_autogen_basic]: the
    include list is [['capital']], and the registry also holds the declared
    column [projected], after the names of the include list. *)
Lemma include_list_is_not_whole_order :
  od_keys (base_columns
             (mkOptions (Some Samples.Country) (Some ["capital"]) None)
             Samples.declared_capital_projected 2%nat).1
  = ["capital"; "projected"]
  ∧ filter (fun n => n ∈ (map f_name (fields Samples.Country)
                           ++ map fst Samples.declared_capital_projected)%list)
      ["capital"]
    = ["capital"]
  ∧ od_keys (base_columns
               (mkOptions (Some Samples.Country) (Some ["capital"]) None)
               Samples.declared_capital_projected 2%nat).1
    ≠ filter (fun n => n ∈ (map f_name (fields Samples.Country)
                             ++ map fst Samples.declared_capital_projected)%list)
        ["capital"].
Proof. split; [reflexivity|]. split; [reflexivity|discriminate]. Qed.

(** C5, amended: with a non-empty include list without repetitions, whose
    names that are not excluded are all fields of the model or declared
    columns, the registry lists first the names of the include list that
    are not excluded, in the order of the include list, and then the
    declared columns whose names are not among those (the ones the include
    list does not name, and the ones it names but the exclude list
    removes), in declaration order; every entry is bound to a column.
    Creation counters play no part in that order. *)
Theorem include_list_orders_registry (opts : ModelTableOptions) (m : Model)
    (declared : list (string * Columns.Column default_obj)) (counter : nat) :
  model opts = Some m →
  truthy (opt_columns opts) = true →
  NoDup (names_of (opt_columns opts)) →
  NoDup (map fst declared) →
  Forall (fun c => c ∈ map f_name (fields m ++ many_to_many m)
                   ∨ c ∈ map fst declared)
    (filter (fun c => c ∉ names_of (opt_exclude opts))
       (names_of (opt_columns opts))) →
  od_keys (base_columns opts declared counter).1
  = (filter (fun c => c ∉ names_of (opt_exclude opts))
       (names_of (opt_columns opts))
     ++ filter (fun n => n ∉ filter (fun c => c ∉ names_of (opt_exclude opts))
                               (names_of (opt_columns opts)))
          (map fst declared))%list
  ∧ Forall (fun k => ∃ col, assoc k (base_columns opts declared counter).1
                            = Some (Some col))
      (od_keys (base_columns opts declared counter).1).
Proof.
  intros Hm Hc Hinc Hdecl Hknown.
  destruct (base_columns_included opts m declared counter Hm Hc)
    as (fl & Hfl & ->).
  set (kept := filter (fun c => c ∉ names_of (opt_exclude opts))
                 (names_of (opt_columns opts))) in *.
  set (pairs := map (fun c => (c, assoc c (od_of_list fl))) kept).
  assert (Hpairs : map fst pairs = kept).
  { unfold pairs. rewrite map_map. simpl. apply map_id. }
  assert (Hkept : NoDup kept) by (by apply NoDup_filter).
  assert (Hkeys : od_keys (od_update (od_of_list pairs)
                     (map (fun kv => (kv.1, Some kv.2)) declared))
                  = (kept ++ filter (fun n => n ∉ kept) (map fst declared))%list).
  { rewrite od_update_keys by (by rewrite map_fst_some).
    rewrite od_of_list_keys_nodup by (by rewrite Hpairs).
    by rewrite map_fst_some, Hpairs. }
  split; [exact Hkeys|].
  rewrite Hkeys. apply Forall_forall. intros k Hk.
  destruct (decide (k ∈ map fst declared)) as [Hd|Hd].
  - apply list_elem_of_fmap in Hd as ([k' col] & -> & Hin). simpl.
    exists col. apply od_update_assoc_in; [by rewrite map_fst_some|].
    apply list_elem_of_fmap. by exists (k', col).
  - apply elem_of_app in Hk as [Hk|Hk];
      [|apply list_elem_of_filter in Hk as [_ Hk]; done].
    rewrite od_update_assoc_notin by (by rewrite map_fst_some).
    assert (Hfield : k ∈ map fst fl).
    { rewrite Hfl. apply list_elem_of_filter.
      pose proof Hk as Hk'. apply list_elem_of_filter in Hk' as [Hex Hin].
      split; [by apply included_not_skipped|].
      rewrite Forall_forall in Hknown. destruct (Hknown k Hk); done. }
    assert (is_Some (assoc k (od_of_list fl))) as [col Hcol].
    { apply assoc_Some_keys. unfold od_of_list.
      apply od_update_key_elem. by right. }
    exists col. unfold od_of_list at 1.
    apply od_update_assoc_in; [by rewrite Hpairs|].
    unfold pairs. apply list_elem_of_fmap. exists k. by rewrite Hcol.
Qed.

(** The include list names [capital] between [id] and [name] and the
    exclude list removes it there; being declared, it follows the included
    names, before [projected]. *)
Lemma include_list_orders_registry_witness :
  NoDup ["id"; "capital"; "name"]
  ∧ NoDup (map fst Samples.declared_capital_projected)
  ∧ od_keys (base_columns
               (mkOptions (Some Samples.City)
                  (Some ["id"; "capital"; "name"]) (Some ["capital"]))
               Samples.declared_capital_projected 2%nat).1
    = ["id"; "name"; "capital"; "projected"].
Proof.
  assert (H1 : NoDup ["id"; "capital"; "name"]) by compute_done.
  assert (H2 : NoDup (map fst Samples.declared_capital_projected))
    by compute_done.
  split; [exact H1|]. split; [exact H2|].
  refine (proj1 (include_list_orders_registry
            (mkOptions (Some Samples.City)
               (Some ["id"; "capital"; "name"]) (Some ["capital"]))
            Samples.City Samples.declared_capital_projected 2%nat
            eq_refl eq_refl H1 H2 _)).
  compute_done.
Defined.

(** C6, as stated, fails on the city table of [test_autogen_basic]: the
    declared column [capital] is named in the exclude list and is in the
    registry all the same, also when the include list names it too. *)
Lemma excluded_declared_column_survives :
  "capital" ∈ ["capital"]
  ∧ od_keys (base_columns
               (mkOptions (Some Samples.City) (Some ["id"; "name"])
                  (Some ["capital"]))
               Samples.declared_capital_projected 2%nat).1
    = ["id"; "name"; "capital"; "projected"]
  ∧ od_keys (base_columns
               (mkOptions (Some Samples.City) (Some ["id"; "capital"; "name"])
                  (Some ["capital"]))
               Samples.declared_capital_projected 2%nat).1
    = ["id"; "name"; "capital"; "projected"]
  ∧ ¬ (∀ n, n ∈ ["capital"] →
         n ∉ od_keys (base_columns
                        (mkOptions (Some Samples.City)
                           (Some ["id"; "capital"; "name"]) (Some ["capital"]))
                        Samples.declared_capital_projected 2%nat).1).
Proof.
  split; [apply list_elem_of_here|]. split; [reflexivity|].
  split; [reflexivity|].
  intros H. apply (H "capital"); [apply list_elem_of_here|].
  change ("capital" ∈ ["id"; "name"; "capital"; "projected"]).
  do 2 apply list_elem_of_further. apply list_elem_of_here.
Qed.

(** C6, amended: a declared column is in the registry under its name
    whatever the include and exclude lists say, and it replaces the column
    synthesized from a field of the same name; the exclude list takes
    precedence over the include list for the names that are not declared:
    an excluded name that is not declared is not in the registry. *)
Theorem declared_columns_win (opts : ModelTableOptions)
    (declared : list (string * Columns.Column default_obj)) (counter : nat) :
  NoDup (map fst declared) →
  (∀ n col, (n, col) ∈ declared →
     assoc n (base_columns opts declared counter).1 = Some (Some col))
  ∧ (∀ n, is_Some (model opts) → n ∈ names_of (opt_exclude opts) →
       n ∉ map fst declared →
       n ∉ od_keys (base_columns opts declared counter).1).
Proof.
  intros Hdecl. split.
  - intros n col Hin.
    assert (Hin' : (n, Some col) ∈ map (fun kv => (kv.1, Some kv.2)) declared).
    { apply list_elem_of_fmap. by exists (n, col). }
    unfold base_columns. destruct (model opts) as [m|].
    + destruct (columns_for_model _ _ _ _) as [columns c']. simpl.
      apply od_update_assoc_in; [by rewrite map_fst_some|done].
    + simpl. apply assoc_in_nodup; [by rewrite map_fst_some|done].
  - intros n [m Hm] Hex Hnd Hin.
    destruct (truthy (opt_columns opts)) eqn:Hc.
    + destruct (base_columns_included opts m declared counter Hm Hc)
        as (fl & Hfl & Heq).
      rewrite Heq in Hin. apply od_update_key_elem in Hin as [Hin|Hin];
        [|by rewrite map_fst_some in Hin].
      unfold od_of_list in Hin at 1.
      apply od_update_key_elem in Hin as [Hin|Hin];
        [by apply elem_of_nil in Hin|].
      rewrite map_map in Hin. simpl in Hin. rewrite map_id in Hin.
      apply list_elem_of_filter in Hin as [Hne _]. done.
    + destruct (base_columns_all_fields opts m declared counter Hm Hc)
        as (fl & Hfl & Heq).
      rewrite Heq in Hin. apply od_update_key_elem in Hin as [Hin|Hin];
        [|by rewrite map_fst_some in Hin].
      unfold od_keys in Hin. rewrite map_fst_some in Hin.
      fold (od_keys (od_of_list fl)) in Hin. unfold od_of_list in Hin.
      apply od_update_key_elem in Hin as [Hin|Hin];
        [by apply elem_of_nil in Hin|].
      rewrite Hfl in Hin. apply list_elem_of_filter in Hin as [Hskip _].
      by rewrite (excluded_skipped _ _ _ Hex) in Hskip.
Qed.

Lemma declared_columns_win_witness :
  NoDup (map fst Samples.declared_capital_projected)
  ∧ ∃ col,
      assoc "capital"
        (base_columns
           (mkOptions (Some Samples.City) (Some ["id"; "name"])
              (Some ["capital"]))
           Samples.declared_capital_projected 2%nat).1
      = Some (Some col)
      ∧ Columns.verbose_name col = Some "Name of capital".
Proof.
  assert (H : NoDup (map fst Samples.declared_capital_projected))
    by compute_done.
  split; [exact H|]. eexists. split.
  - apply (proj1 (declared_columns_win
             (mkOptions (Some Samples.City) (Some ["id"; "name"])
                (Some ["capital"]))
             Samples.declared_capital_projected 2%nat H)).
    apply list_elem_of_here.
  - reflexivity.
Defined.

End RegistryTheorems.

(** * Further properties of the code *)

(** ** Column construction *)

Module ExtraColumns.
Import Columns.

(** X1: the creation counters of the columns built by a run of constructor
    calls are consecutive, starting at the value the class counter had; the
    counter ends at that value plus the number of columns built, so a
    construction that fails on its direction uses up no counter value. *)
Theorem creation_counters_consecutive {D} (calls : list (ColumnArgs D))
    (n : nat) :
  map creation_counter (construct_all calls n).1
  = seq n (length (construct_all calls n).1)
  ∧ (construct_all calls n).2 = (n + length (construct_all calls n).1)%nat.
Proof.
  revert n. induction calls as [|a rest IH]; intros n; simpl.
  - split; [reflexivity|lia].
  - pose proof (ColumnFacts.init_counter a n) as Hi.
    destruct (__init__ a n) as [[c|e] n'].
    + destruct Hi as [Hc ->]. destruct (IH (S n)) as [Hm Hf].
      destruct (construct_all rest (S n)) as [cs final]; simpl in *.
      split; [by rewrite Hc, Hm|lia].
    + subst n'. apply IH.
Qed.

End ExtraColumns.

(** ** The in-memory sort *)

Module ExtraSort.
Import Base Memory SortFacts CmpFacts.

Section Generic.
Context {A : Type} (c : A → A → Z).

Lemma list_sort_of_sorted (l : list A) :
  StronglySorted (fun x y => c x y ≤ 0) l → list_sort c l = l.
Proof.
  induction 1 as [|a t Hs IH Ha]; simpl; [reflexivity|].
  rewrite IH. destruct t as [|b t]; [reflexivity|]. simpl.
  inversion Ha as [|? ? Hab _]; subst.
  destruct (Z.leb_spec (c a b) 0); [reflexivity|lia].
Qed.

Lemma pairwise_sorted (l : list A) :
  (∀ a b, a ∈ l → b ∈ l → c a b ≤ 0) →
  StronglySorted (fun x y => c x y ≤ 0) l.
Proof.
  induction l as [|a t IH]; intros Hc; constructor.
  - apply IH. intros x y Hx Hy. apply Hc; by right.
  - apply Forall_forall. intros y Hy. apply Hc; [by left|by right].
Qed.

Lemma StronglySorted_filter (R : A → A → Prop) (P : A → Prop)
    `{!∀ x, Decision (P x)} (l : list A) :
  StronglySorted R l → StronglySorted R (filter P l).
Proof.
  induction 1 as [|a t Hs IH Ha]; [constructor|].
  rewrite filter_cons. destruct (decide (P a)); [|exact IH].
  constructor; [exact IH|].
  apply Forall_forall. intros y Hy. apply list_elem_of_filter in Hy as [_ Hy].
  rewrite Forall_forall in Ha. by apply Ha.
Qed.

Hypothesis c_antisym : ∀ x y, c y x = - c x y.

(** Two sorted arrangements of the same records that keep tied records
    in the same order are the same list. *)
Lemma stable_sorted_unique (l1 l2 : list A) :
  StronglySorted (fun x y => c x y ≤ 0) l1 →
  StronglySorted (fun x y => c x y ≤ 0) l2 →
  l1 ≡ₚ l2 →
  (∀ x, filter (fun y => c x y = 0) l1 = filter (fun y => c x y = 0) l2) →
  l1 = l2.
Proof.
  intros Hs1. revert l2.
  induction Hs1 as [|a t1 Hs1 IH Ha]; intros l2 Hs2 Hp Hf.
  - symmetry. by apply Permutation_nil.
  - destruct Hs2 as [|b t2 Hs2 Hb].
    { by apply Permutation_nil_r in Hp. }
    assert (Haa : ∀ x, c x x = 0) by (intros x; specialize (c_antisym x x); lia).
    rewrite Forall_forall in Ha, Hb.
    assert (Hba : c b a ≤ 0).
    { assert (Hin : a ∈ b :: t2) by (rewrite <- Hp; by left).
      apply elem_of_cons in Hin as [->|Hin]; [rewrite Haa; lia|by apply Hb]. }
    assert (Hab : c a b ≤ 0).
    { assert (Hin : b ∈ a :: t1) by (rewrite Hp; by left).
      apply elem_of_cons in Hin as [->|Hin]; [rewrite Haa; lia|by apply Ha]. }
    assert (Hz : c a b = 0) by (specialize (c_antisym a b); lia).
    pose proof (Hf a) as Hfa.
    rewrite (filter_cons_True _ a t1), (filter_cons_True _ b t2) in Hfa
      by (by rewrite ?Haa).
    injection Hfa as <- _.
    f_equal. apply IH; [exact Hs2|by apply (inj (cons a))|].
    intros x. specialize (Hf x). rewrite !filter_cons in Hf.
    destruct (decide (c x a = 0)); [by injection Hf|exact Hf].
Qed.

(** A list sorted under a first comparison, whose groups of records tied
    under it are sorted under a second one, is sorted under the first
    comparison refined by the second. *)
Lemma sorted_by_refinement (c1 c2 : A → A → Z) (l : list A) :
  (∀ x y, c1 x y ≠ 0 → c x y = c1 x y) →
  (∀ x y, c1 x y = 0 → c x y = c2 x y) →
  StronglySorted (fun x y => c1 x y ≤ 0) l →
  (∀ x, StronglySorted (fun a b => c2 a b ≤ 0)
          (filter (fun y => c1 x y = 0) l)) →
  StronglySorted (fun x y => c x y ≤ 0) l.
Proof.
  intros Hne Heq. induction 1 as [|a t Hs IH Ha]; intros Hgroups;
    constructor.
  - apply IH. intros x. specialize (Hgroups x). rewrite filter_cons in Hgroups.
    destruct (decide (c1 x a = 0)); [by inversion Hgroups|exact Hgroups].
  - apply Forall_forall. intros y Hy.
    rewrite Forall_forall in Ha. specialize (Ha y Hy).
    destruct (decide (c1 a y = 0)) as [Hz|Hnz].
    + rewrite (Heq _ _ Hz). specialize (Hgroups a).
      assert (Hzz : c1 a a = 0).
      { destruct (decide (c1 a a = 0)) as [|Hn]; [done|].
        pose proof (Hne a a Hn). specialize (c_antisym a a). lia. }
      rewrite filter_cons_True in Hgroups by exact Hzz.
      inversion Hgroups as [|? ? _ Hall]; subst.
      rewrite Forall_forall in Hall. apply Hall.
      by apply list_elem_of_filter.
    + by rewrite (Hne _ _ Hnz).
Qed.
End Generic.

Lemma cmp_None_least (v : value) : v ≠ VNone → cmp v VNone > 0.
Proof. destruct v; simpl; (done || lia). Qed.

Section WithCallables.
Variable call : fn_id → call_arg → value.
Context {A : Type} (get : A → row).

Local Abbreviation cmp_by instr :=
  (fun a b : A => _cmp call instr (get a) (get b)).

Lemma cmp_by_antisym instr (x y : A) : cmp_by instr y x = - cmp_by instr x y.
Proof. apply _cmp_antisym. Qed.

Lemma cmp_by_trans instr (x y z : A) :
  cmp_by instr x y ≤ 0 → cmp_by instr y z ≤ 0 → cmp_by instr x z ≤ 0.
Proof. apply _cmp_trans. Qed.

Lemma cmp_by_eq_trans instr (x a b : A) :
  cmp_by instr x a = 0 → cmp_by instr x b = 0 → cmp_by instr a b = 0.
Proof. apply _cmp_eq_trans. Qed.

Lemma sort_table_sorted (data : list A) (order_by : list string) :
  StronglySorted (fun a b => cmp_by (instructions order_by) a b ≤ 0)
    (sort_table call get data order_by).
Proof.
  apply (list_sort_sorted (cmp_by (instructions order_by))).
  - intros x y. apply cmp_by_antisym.
  - intros x y z. apply cmp_by_trans.
Qed.

(** X19: [_cmp] is a consistent three-way comparison for every list of
    instructions and all records, whatever objects they hold and whichever
    keys they lack: a record compares equal to itself, swapping the
    arguments negates the result, and the order it induces is transitive.
    This is what the list sort needs to produce a sorted list. *)
Theorem cmp_function_is_consistent (instr : list (string * bool))
    (x y z : row) :
  _cmp call instr x x = 0
  ∧ _cmp call instr y x = - _cmp call instr x y
  ∧ (_cmp call instr x y ≤ 0 → _cmp call instr y z ≤ 0 →
     _cmp call instr x z ≤ 0)
  ∧ (_cmp call instr x y = 0 → _cmp call instr y z = 0 →
     _cmp call instr x z = 0).
Proof.
  split; [apply _cmp_refl|]. split; [apply _cmp_antisym|].
  split; [apply _cmp_trans|].
  intros H1 H2. pose proof (_cmp_antisym call instr x y) as Ha.
  apply (_cmp_eq_trans call instr y); [lia|exact H2].
Qed.

(** X2: an empty ordering leaves the list as it is, and so does any
    ordering under whose keys all the records have the same values: the
    sort never reorders records that compare equal. *)
Theorem sort_table_keeps_tied_lists (data : list A) (order_by : list string) :
  sort_table call get data [] = data
  ∧ ((∀ a b, a ∈ data → b ∈ data →
        Forall (fun o => key_value call (rmprefix o) (get a)
                         = key_value call (rmprefix o) (get b)) order_by) →
     sort_table call get data order_by = data).
Proof.
  split.
  - apply list_sort_of_sorted, pairwise_sorted. intros a b _ _. simpl. lia.
  - intros Hties. apply list_sort_of_sorted, pairwise_sorted.
    intros a b Ha Hb.
    assert (_cmp call (instructions order_by) (get a) (get b) = 0) as ->; [|lia].
    apply _cmp_zero. rewrite SnapshotTheorems.instructions_map, Forall_fmap.
    exact (Hties a b Ha Hb).
Qed.

(** X3: sorting is idempotent: sorting a list that [sort_table] has
    sorted, by the same ordering, changes nothing. *)
Theorem sort_table_idempotent (data : list A) (order_by : list string) :
  sort_table call get (sort_table call get data order_by) order_by
  = sort_table call get data order_by.
Proof. apply list_sort_of_sorted, sort_table_sorted. Qed.

Lemma _cmp_first_key i rest (x y : row) :
  (_cmp call [i] x y ≠ 0 → _cmp call (i :: rest) x y = _cmp call [i] x y)
  ∧ (_cmp call [i] x y = 0 → _cmp call (i :: rest) x y = _cmp call rest x y).
Proof.
  destruct i as [k r]. rewrite !_cmp_cons. simpl.
  case_decide as E; split; try done.
  intros Hz. destruct r; lia.
Qed.

(** X4: the first key of an ordering has priority: whatever keys follow
    it, the sorted list is sorted under the first key alone. *)
Theorem sort_table_primary_key (data : list A) (o : string)
    (rest : list string) :
  StronglySorted (fun a b => cmp_by (instructions [o]) a b ≤ 0)
    (sort_table call get data (o :: rest)).
Proof.
  eapply StronglySorted_impl; [|apply sort_table_sorted].
  intros x y. rewrite !instructions_cons. simpl instructions.
  destruct (_cmp_first_key (rmprefix o, has_prefix o) (instructions rest)
              (get x) (get y)) as [Hne Heq].
  destruct (decide (_cmp call [(rmprefix o, has_prefix o)] (get x) (get y) = 0))
    as [Hz|Hnz]; [lia|]. by rewrite (Hne Hnz).
Qed.

(** X5: a multi-key sort is a chain of single-key sorts: sorting by
    [o :: rest] gives the same list as sorting by [rest] first and then
    sorting the result by [o] alone. *)
Theorem sort_table_by_successive_keys (data : list A) (o : string)
    (rest : list string) :
  sort_table call get data (o :: rest)
  = sort_table call get (sort_table call get data rest) [o].
Proof.
  unfold sort_table. rewrite !instructions_cons. simpl instructions.
  set (i := (rmprefix o, has_prefix o)). set (r := instructions rest).
  assert (Hsplit : ∀ x y, cmp_by (i :: r) x y = 0
                          ↔ cmp_by [i] x y = 0 ∧ cmp_by r x y = 0).
  { intros x y. destruct (_cmp_first_key i r (get x) (get y)) as [Hne Heq].
    destruct (decide (cmp_by [i] x y = 0)) as [Hz|Hnz].
    - rewrite (Heq Hz). tauto.
    - rewrite (Hne Hnz). tauto. }
  assert (Hfilter : ∀ x (l : list A),
            filter (fun y => cmp_by (i :: r) x y = 0) l
            = filter (fun y => cmp_by [i] x y = 0)
                (filter (fun y => cmp_by r x y = 0) l)).
  { intros x l. rewrite list_filter_filter. apply list_filter_iff.
    intros y. apply Hsplit. }
  apply (stable_sorted_unique (cmp_by (i :: r))).
  - intros x y. apply cmp_by_antisym.
  - apply list_sort_sorted; [intros x y; apply cmp_by_antisym
                            |intros x y z; apply cmp_by_trans].
  - apply (sorted_by_refinement (cmp_by (i :: r)) (fun x y => cmp_by_antisym _ x y)
             (cmp_by [i]) (cmp_by r)).
    + intros x y. apply _cmp_first_key.
    + intros x y. apply _cmp_first_key.
    + apply list_sort_sorted; [intros x y; apply cmp_by_antisym
                              |intros x y z; apply cmp_by_trans].
    + intros x.
      rewrite (list_sort_stable (cmp_by [i]))
        by (intros ? ? ?; apply cmp_by_eq_trans).
      apply StronglySorted_filter.
      apply list_sort_sorted; [intros ? ?; apply cmp_by_antisym
                              |intros ? ? ?; apply cmp_by_trans].
  - rewrite !list_sort_perm. reflexivity.
  - intros x.
    assert (Hfilter' : ∀ l : list A,
              filter (fun y => cmp_by (i :: r) x y = 0) l
              = filter (fun y => cmp_by r x y = 0)
                  (filter (fun y => cmp_by [i] x y = 0) l)).
    { intros l. rewrite list_filter_filter. apply list_filter_iff.
      intros y. rewrite Hsplit. tauto. }
    rewrite (list_sort_stable (cmp_by (i :: r)))
      by (intros ? ? ?; apply cmp_by_eq_trans).
    rewrite (Hfilter' (list_sort (cmp_by [i]) (list_sort (cmp_by r) data))).
    rewrite (list_sort_stable (cmp_by [i]))
      by (intros ? ? ?; apply cmp_by_eq_trans).
    rewrite <- Hfilter', !Hfilter.
    rewrite (list_sort_stable (cmp_by r))
      by (intros ? ? ?; apply cmp_by_eq_trans).
    reflexivity.
Qed.

(** X8: a record that has nothing under the key is compared as [None],
    and [None] is below every other object: in an ascending single-key
    sort no record without a value comes after a record with one. *)
Theorem records_without_value_sort_first (data : list A) (k : string)
    (before after : list A) (b : A) :
  has_prefix k = false →
  sort_table call get data [k] = (before ++ b :: after)%list →
  key_value call k (get b) ≠ VNone →
  Forall (fun a => key_value call k (get a) ≠ VNone ∧ is_Some (get a !! k))
    after.
Proof.
  intros Hk Hsort Hb.
  pose proof (sort_table_sorted data [k]) as Hs. rewrite Hsort in Hs.
  apply StronglySorted_app_1_r in Hs. inversion Hs as [|? ? _ Hall]; subst.
  rewrite instructions_cons in Hall. simpl instructions in Hall.
  rewrite Hk, (SnapshotTheorems.rmprefix_no_prefix k Hk) in Hall.
  eapply Forall_impl; [exact Hall|]. intros a Ha. cbv beta in Ha.
  assert (Hne : key_value call k (get a) ≠ VNone).
  { intros Hnone. rewrite _cmp_cons, key_cmp_unfold, Hnone in Ha.
    pose proof (cmp_None_least _ Hb). cbv iota in Ha.
    case_decide; lia. }
  split; [exact Hne|].
  destruct (get a !! k) as [v|] eqn:E; [by eexists|].
  exfalso. apply Hne. unfold key_value, dict_get. by rewrite E.
Qed.
End WithCallables.

Lemma records_without_value_sort_first_witness :
  has_prefix "k" = false
  ∧ sort_table Samples.no_call MoreSamples.partial [3%nat; 1%nat; 2%nat] ["k"]
    = ([1%nat] ++ 2%nat :: [3%nat])%list
  ∧ Forall (fun a => is_Some (MoreSamples.partial a !! "k")) [3%nat].
Proof.
  assert (H1 : has_prefix "k" = false) by reflexivity.
  assert (H2 : sort_table Samples.no_call MoreSamples.partial
                 [3%nat; 1%nat; 2%nat] ["k"]
               = ([1%nat] ++ 2%nat :: [3%nat])%list) by reflexivity.
  split; [exact H1|]. split; [exact H2|].
  eapply Forall_impl.
  - apply (records_without_value_sort_first Samples.no_call MoreSamples.partial
             [3%nat; 1%nat; 2%nat] "k" [1%nat] [3%nat] 2%nat H1 H2).
    discriminate.
  - simpl. tauto.
Defined.

End ExtraSort.

(** ** Snapshots of in-memory tables *)

Module ExtraSnapshot.
Import Base Memory MemoryFacts.

Lemma filter_eq_absent (l : loc) (data : list loc) :
  l ∉ data → filter (fun l' => l' = l) data = [].
Proof.
  induction data as [|a t IH]; intros Hl; [reflexivity|].
  apply not_elem_of_cons in Hl as [Hne Hl].
  rewrite filter_cons_False by congruence. by apply IH.
Qed.

Section WithCallables.
Variable call : fn_id → call_arg → value.

Lemma iter_fill_row_present cols n (r : row) k :
  is_Some (r !! k) → is_Some (Nat.iter n (fill_row call cols) r !! k).
Proof.
  intros Hk. induction n as [|n IH]; simpl; [exact Hk|].
  by apply fill_row_present.
Qed.

(** X6: what [_build_snapshot] leaves alone.  It creates and removes no
    record; a record the data list does not refer to is unchanged; in a
    record it does fill, no key is removed, and a key that is no column's
    source accessor keeps its value (or stays absent). *)
Theorem build_snapshot_frame (t : MemoryTable) (σ : store) :
  dom (_build_snapshot call t σ).1 = dom σ
  ∧ (∀ l, l ∉ _data t → (_build_snapshot call t σ).1 !! l = σ !! l)
  ∧ (∀ l r r' k, σ !! l = Some r →
       (_build_snapshot call t σ).1 !! l = Some r' →
       (is_Some (r !! k) → is_Some (r' !! k))
       ∧ (Forall (fun bc => src_accessor bc ≠ k) (columns t) →
          r' !! k = r !! k)).
Proof.
  rewrite build_snapshot_store. split; [|split].
  - apply set_eq. intros l. rewrite !elem_of_dom, fill_defaults_lookup.
    by rewrite fmap_is_Some.
  - intros l Hl. rewrite fill_defaults_lookup, (filter_eq_absent l _ Hl).
    simpl. by destruct (σ !! l).
  - intros l r r' k Hr. rewrite fill_defaults_lookup, Hr. simpl.
    intros [= <-]. split.
    + apply iter_fill_row_present.
    + apply iter_fill_row_other.
Qed.

Lemma get_default_literal (bc : BoundColumn value) (x : row) :
  callable (Columns.default (column bc)) = false →
  get_default call bc x = Columns.default (column bc).
Proof. unfold get_default. by destruct (Columns.default (column bc)). Qed.

Lemma is_None_true (v : value) : is_None v = true ↔ v = VNone.
Proof. destruct v; simpl; split; congruence. Qed.

(** After the defaulting loop a record holds [None] under a column's
    accessor only if that column's default is [None]. *)
Lemma fill_row_settled cols (r : row) (bc : BoundColumn value) :
  Forall (fun bc => callable (Columns.default (column bc)) = false) cols →
  bc ∈ cols →
  is_None (dict_get (fill_row call cols r) (src_accessor bc)) = true →
  fill_row call cols r !! src_accessor bc = Some VNone
  ∧ Columns.default (column bc) = VNone.
Proof.
  intros Hlit Hin HN.
  apply list_elem_of_split in Hin as (pre & post & ->).
  unfold fill_row in *. rewrite foldl_app in *. simpl in *.
  set (r1 := foldl (fill_column call) r pre) in *.
  pose proof (fill_column_lookup call r1 bc) as Hl.
  apply Forall_app in Hlit as [_ Hlit]. inversion Hlit as [|? ? Hbc _]; subst.
  rewrite (get_default_literal bc r1 Hbc) in Hl.
  set (v := if is_None (dict_get r1 (src_accessor bc))
            then Columns.default (column bc)
            else dict_get r1 (src_accessor bc)) in *.
  destruct (decide (v = VNone)) as [Hv|Hv].
  - split.
    + pose proof (fill_row_present call post _ (src_accessor bc)
                    (mk_is_Some _ _ Hl)) as [w Hw].
      unfold fill_row in Hw. unfold dict_get in HN. rewrite Hw in HN.
      simpl in HN. apply is_None_true in HN. by rewrite Hw, HN.
    + subst v. destruct (is_None (dict_get r1 (src_accessor bc))) eqn:E;
        [exact Hv|]. apply is_None_true in Hv. congruence.
  - pose proof (fill_row_keeps call post _ _ _ Hl Hv) as Hk.
    unfold fill_row in Hk. unfold dict_get in HN. rewrite Hk in HN.
    simpl in HN. apply is_None_true in HN. done.
Qed.

Lemma fill_row_fixed cols (r : row) :
  Forall (fun bc => callable (Columns.default (column bc)) = false) cols →
  Forall (fun bc => is_None (dict_get r (src_accessor bc)) = true →
                    r !! src_accessor bc = Some VNone
                    ∧ Columns.default (column bc) = VNone) cols →
  fill_row call cols r = r.
Proof.
  unfold fill_row. induction cols as [|bc rest IH]; intros Hlit Hs; simpl;
    [reflexivity|].
  inversion Hlit as [|? ? Hbc Hlit']; inversion Hs as [|? ? Hsbc Hs']; subst.
  assert (fill_column call r bc = r) as ->; [|by apply IH].
  unfold fill_column. destruct (is_None _) eqn:E; [|reflexivity].
  destruct (Hsbc eq_refl) as [Hl Hd].
  rewrite (get_default_literal bc r Hbc), Hd. by apply insert_id.
Qed.

Lemma fill_row_idempotent cols (r : row) :
  Forall (fun bc => callable (Columns.default (column bc)) = false) cols →
  fill_row call cols (fill_row call cols r) = fill_row call cols r.
Proof.
  intros Hlit. apply fill_row_fixed; [exact Hlit|].
  apply Forall_forall. intros bc Hbc. by apply fill_row_settled.
Qed.

(** X7: when no column default is a callable, building the snapshot a
    second time changes no record: the first build has already stored
    every default, and the second finds nothing left to fill. *)
Theorem build_snapshot_again_changes_nothing (t : MemoryTable) (σ : store) :
  Forall (fun bc => callable (Columns.default (column bc)) = false)
    (columns t) →
  (_build_snapshot call t (_build_snapshot call t σ).1).1
  = (_build_snapshot call t σ).1.
Proof.
  intros Hlit. rewrite !build_snapshot_store. apply map_eq. intros l.
  rewrite !fill_defaults_lookup.
  destruct (σ !! l) as [r|]; simpl; [|reflexivity]. f_equal.
  induction (length (filter (fun l' => l' = l) (_data t))) as [|n IH];
    [reflexivity|].
  assert (Hfix : ∀ m x, Nat.iter (S m) (fill_row call (columns t)) x
                        = fill_row call (columns t) x).
  { intros m x. induction m as [|m IHm]; [reflexivity|].
    change (Nat.iter (S (S m)) (fill_row call (columns t)) x)
      with (fill_row call (columns t)
              (Nat.iter (S m) (fill_row call (columns t)) x)).
    rewrite IHm. by apply fill_row_idempotent. }
  rewrite !Hfix. by apply fill_row_idempotent.
Qed.
End WithCallables.

Lemma build_snapshot_again_changes_nothing_witness :
  Forall (fun bc => callable (Columns.default (column bc)) = false)
    (columns Samples.sparse_table)
  ∧ (_build_snapshot Samples.no_call Samples.sparse_table
       (_build_snapshot Samples.no_call Samples.sparse_table
          Samples.sparse_store).1).1
    = (_build_snapshot Samples.no_call Samples.sparse_table
         Samples.sparse_store).1.
Proof.
  assert (H : Forall (fun bc => callable (Columns.default (column bc)) = false)
                (columns Samples.sparse_table))
    by (repeat constructor).
  split; [exact H|].
  exact (build_snapshot_again_changes_nothing Samples.no_call
           Samples.sparse_table Samples.sparse_store H).
Defined.

End ExtraSnapshot.

(** ** Registry assembly *)

Module ExtraRegistry.
Import Base Models RegistryFacts.

Section Dict.
Context {V : Type}.
Implicit Types (d other : list (string * V)) (k : string) (v : V).

Lemma od_set_nodup k v d : NoDup (od_keys d) → NoDup (od_keys (od_set k v d)).
Proof.
  intros Hnd. rewrite od_keys_set. case_bool_decide; [exact Hnd|].
  apply NoDup_app. split; [exact Hnd|]. split; [|apply NoDup_singleton].
  intros x Hx Hx'. apply list_elem_of_singleton in Hx'. by subst.
Qed.

Lemma od_update_nodup d other :
  NoDup (od_keys d) → NoDup (od_keys (od_update d other)).
Proof.
  unfold od_update. revert d.
  induction other as [|[k v] t IH]; intros d Hnd; simpl; [exact Hnd|].
  by apply IH, od_set_nodup.
Qed.

Lemma od_update_assoc_same d other k v :
  k ∈ map fst other → (∀ v', (k, v') ∈ other → v' = v) →
  assoc k (od_update d other) = Some v.
Proof.
  revert d. induction other as [|[k0 v0] t IH]; intros d Hin Hsame.
  - by apply elem_of_nil in Hin.
  - change (od_update d ((k0, v0) :: t)) with (od_update (od_set k0 v0 d) t).
    destruct (decide (k ∈ map fst t)) as [Ht|Ht].
    + apply IH; [exact Ht|]. intros v' Hv'. apply Hsame. by right.
    + rewrite od_update_assoc_notin by exact Ht.
      simpl in Hin. apply elem_of_cons in Hin as [->|Hin]; [|done].
      rewrite assoc_od_set, bool_decide_true by done.
      f_equal. apply Hsame. by left.
Qed.

Lemma assoc_map_some k d :
  assoc k (map (fun kv => (kv.1, Some kv.2)) d) = Some <$> assoc k d.
Proof.
  induction d as [|[k0 v0] t IH]; simpl; [reflexivity|].
  by destruct (bool_decide (k0 = k)).
Qed.
End Dict.

Lemma skipped_without_include columns exclude (n : string) :
  truthy columns = false →
  (skipped columns exclude n = false ↔ n ∉ names_of exclude).
Proof.
  intros Hc. unfold skipped, is_in. rewrite Hc. simpl.
  destruct exclude as [[|x l]|]; simpl.
  - rewrite elem_of_nil. tauto.
  - by rewrite bool_decide_eq_false.
  - rewrite elem_of_nil. tauto.
Qed.

Lemma not_skipped_with_include columns exclude (n : string) :
  truthy columns = true → skipped columns exclude n = false →
  n ∈ names_of columns ∧ n ∉ names_of exclude.
Proof.
  intros Hc. unfold skipped, is_in. rewrite Hc. simpl.
  rewrite orb_false_iff, negb_false_iff, bool_decide_eq_true.
  intros [Hin Hex]. split; [exact Hin|].
  destruct exclude as [[|x l]|]; simpl in *;
    [apply not_elem_of_nil|by apply bool_decide_eq_false in Hex
    |apply not_elem_of_nil].
Qed.

Lemma field_list_counters (fs : list Field) columns exclude (n : nat) :
  map (fun kv => Columns.creation_counter kv.2)
    (field_list fs columns exclude n).1
  = seq n (length (field_list fs columns exclude n).1)
  ∧ (field_list fs columns exclude n).2
    = (n + length (field_list fs columns exclude n).1)%nat.
Proof.
  revert n. induction fs as [|f rest IH]; intros n; simpl.
  - split; [reflexivity|lia].
  - destruct (skipped columns exclude (f_name f)); [apply IH|].
    unfold Columns.__init__. simpl.
    destruct (IH (S n)) as [Hm Hf].
    destruct (field_list rest columns exclude (S n)) as [l final].
    simpl in *. split; [by rewrite Hm|lia].
Qed.

Lemma field_list_entry (fs : list Field) columns exclude (n : nat) (f : Field) :
  f ∈ fs → skipped columns exclude (f_name f) = false →
  ∃ col, (f_name f, col) ∈ (field_list fs columns exclude n).1
         ∧ Columns.verbose_name col = Some (f_verbose_name f).
Proof.
  revert n. induction fs as [|f0 rest IH]; intros n Hin Hs.
  - by apply elem_of_nil in Hin.
  - simpl. apply elem_of_cons in Hin as [<-|Hin].
    + rewrite Hs. unfold Columns.__init__. simpl.
      destruct (field_list rest columns exclude (S n)) as [l final].
      eexists. split; [by left|reflexivity].
    + destruct (skipped columns exclude (f_name f0)); [by apply IH|].
      unfold Columns.__init__. simpl.
      destruct (IH (S n) Hin Hs) as (col & Hcol & Hv).
      destruct (field_list rest columns exclude (S n)) as [l final].
      exists col. split; [by right|exact Hv].
Qed.

(** X9: without an include list the registry follows the model: the
    fields that are not excluded, in the order of the model (a declared
    column of the same name takes the field's place), and then the
    declared columns that are no field, in declaration order. *)
Theorem registry_follows_model_fields (opts : ModelTableOptions) (m : Model)
    (declared : list (string * Columns.Column default_obj)) (counter : nat) :
  model opts = Some m →
  truthy (opt_columns opts) = false →
  NoDup (map f_name (fields m ++ many_to_many m)) →
  NoDup (map fst declared) →
  od_keys (base_columns opts declared counter).1
  = (filter (fun n => n ∉ names_of (opt_exclude opts))
       (map f_name (fields m ++ many_to_many m))
     ++ filter (fun n => n ∉ filter (fun n => n ∉ names_of (opt_exclude opts))
                               (map f_name (fields m ++ many_to_many m)))
          (map fst declared))%list.
Proof.
  intros Hm Hc Hfields Hdecl.
  destruct (base_columns_all_fields opts m declared counter Hm Hc)
    as (fl & Hfl & ->).
  assert (Hfl' : map fst fl
                 = filter (fun n => n ∉ names_of (opt_exclude opts))
                     (map f_name (fields m ++ many_to_many m))).
  { rewrite Hfl. apply filter_ext_in. intros n _.
    by apply skipped_without_include. }
  assert (Hk : od_keys (map (fun kv => (kv.1, Some kv.2)) (od_of_list fl))
               = filter (fun n => n ∉ names_of (opt_exclude opts))
                   (map f_name (fields m ++ many_to_many m))).
  { unfold od_keys. rewrite map_fst_some. fold (od_keys (od_of_list fl)).
    rewrite od_of_list_keys_nodup by (rewrite Hfl'; by apply NoDup_filter).
    exact Hfl'. }
  rewrite od_update_keys by (by rewrite map_fst_some).
  by rewrite Hk, map_fst_some.
Qed.

Lemma registry_follows_model_fields_witness :
  NoDup (map f_name (fields Samples.Country ++ many_to_many Samples.Country))
  ∧ NoDup (map fst Samples.declared_capital_projected)
  ∧ od_keys (base_columns
               (mkOptions (Some Samples.Country) None (Some ["tld"]))
               Samples.declared_capital_projected 2%nat).1
    = ["id"; "name"; "population"; "capital"; "system"; "null"; "null2";
       "projected"].
Proof.
  assert (H1 : NoDup (map f_name (fields Samples.Country
                                  ++ many_to_many Samples.Country)))
    by compute_done.
  assert (H2 : NoDup (map fst Samples.declared_capital_projected))
    by compute_done.
  split; [exact H1|]. split; [exact H2|].
  exact (registry_follows_model_fields
           (mkOptions (Some Samples.Country) None (Some ["tld"]))
           Samples.Country Samples.declared_capital_projected 2%nat
           eq_refl eq_refl H1 H2).
Defined.

(** X10: [columns_for_model] builds one column for each field it does not
    pass over, in the order of the model's fields, and each takes the next
    creation counter: the counters of the synthesized columns are
    consecutive in field order (whatever order an include list gives the
    registry), and the fields passed over use up none. *)
Theorem synthesized_columns_take_next_counters (m : Model)
    (columns exclude : option (list string)) (n : nat) :
  map fst (field_list (fields m ++ many_to_many m) columns exclude n).1
  = filter (fun name => skipped columns exclude name = false)
      (map f_name (fields m ++ many_to_many m))
  ∧ map (fun kv => Columns.creation_counter kv.2)
      (field_list (fields m ++ many_to_many m) columns exclude n).1
    = seq n (length (field_list (fields m ++ many_to_many m) columns exclude n).1)
  ∧ (columns_for_model m columns exclude n).2
    = (n + length (filter (fun name => skipped columns exclude name = false)
                     (map f_name (fields m ++ many_to_many m))))%nat.
Proof.
  pose proof (field_list_names (fields m ++ many_to_many m) columns exclude n)
    as Hnames.
  destruct (field_list_counters (fields m ++ many_to_many m) columns exclude n)
    as [Hc Hf].
  split; [exact Hnames|]. split; [exact Hc|].
  unfold columns_for_model.
  destruct (field_list _ _ _ _) as [fl final]. simpl in *.
  rewrite <- Hnames, length_map.
  by destruct (truthy columns).
Qed.

(** X11: no name occurs twice in a registry, whatever the include list,
    the exclude list and the model's fields are, as long as the declared
    columns have distinct names. *)
Theorem registry_names_unique (opts : ModelTableOptions)
    (declared : list (string * Columns.Column default_obj)) (counter : nat) :
  NoDup (map fst declared) →
  NoDup (od_keys (base_columns opts declared counter).1).
Proof.
  intros Hdecl. unfold base_columns. destruct (model opts) as [m|]; simpl.
  - unfold columns_for_model.
    destruct (field_list _ _ _ _) as [fl final].
    destruct (truthy (opt_columns opts)); simpl; apply od_update_nodup.
    + apply od_update_nodup. constructor.
    + unfold od_keys. rewrite map_fst_some. apply od_update_nodup. constructor.
  - unfold od_keys. by rewrite map_fst_some.
Qed.

Lemma registry_names_unique_witness :
  NoDup (map fst Samples.declared_capital_projected)
  ∧ NoDup (od_keys (base_columns
                      (mkOptions (Some Samples.City)
                         (Some ["id"; "id"; "capital"; "name"])
                         (Some ["capital"]))
                      Samples.declared_capital_projected 2%nat).1).
Proof.
  assert (H : NoDup (map fst Samples.declared_capital_projected))
    by compute_done.
  split; [exact H|].
  exact (registry_names_unique _ Samples.declared_capital_projected 2%nat H).
Defined.

(** X12: a field of the model that is not passed over and that no declared
    column overrides is in the registry under its name, bound to a column
    whose [verbose_name] is the field's. *)
Theorem synthesized_column_has_field_verbose_name (opts : ModelTableOptions)
    (m : Model) (declared : list (string * Columns.Column default_obj))
    (counter : nat) (f : Field) :
  model opts = Some m →
  NoDup (map f_name (fields m ++ many_to_many m)) →
  f ∈ (fields m ++ many_to_many m)%list →
  skipped (opt_columns opts) (opt_exclude opts) (f_name f) = false →
  f_name f ∉ map fst declared →
  ∃ col, assoc (f_name f) (base_columns opts declared counter).1
         = Some (Some col)
         ∧ Columns.verbose_name col = Some (f_verbose_name f).
Proof.
  intros Hm Hfields Hf Hskip Hdecl.
  assert (Hentry : ∀ fl : list (string * Columns.Column default_obj),
            map fst fl
            = filter (fun name => skipped (opt_columns opts) (opt_exclude opts)
                                    name = false)
                (map f_name (fields m ++ many_to_many m)) →
            (∃ col, (f_name f, col) ∈ fl
                    ∧ Columns.verbose_name col = Some (f_verbose_name f)) →
            ∃ col, assoc (f_name f) (od_of_list fl) = Some col
                   ∧ Columns.verbose_name col = Some (f_verbose_name f)).
  { intros fl Hfl (col & Hin & Hv). exists col. split; [|exact Hv].
    apply od_update_assoc_in; [|exact Hin].
    rewrite Hfl. by apply NoDup_filter. }
  pose proof (field_list_entry (fields m ++ many_to_many m) (opt_columns opts)
                (opt_exclude opts) counter f Hf Hskip) as Hcol.
  pose proof (field_list_names (fields m ++ many_to_many m) (opt_columns opts)
                (opt_exclude opts) counter) as Hnames.
  destruct (truthy (opt_columns opts)) eqn:Hc.
  - destruct (not_skipped_with_include _ _ _ Hc Hskip) as [Hin Hex].
    unfold base_columns, columns_for_model. rewrite Hm, Hc.
    destruct (field_list _ _ _ _) as [fl final]. simpl in *.
    destruct (Hentry fl Hnames Hcol) as (col & Hassoc & Hv).
    exists col. split; [|exact Hv].
    rewrite od_update_assoc_notin by (by rewrite map_fst_some).
    apply od_update_assoc_same.
    + rewrite map_map. simpl. rewrite map_id.
      apply list_elem_of_filter. split; [|exact Hin].
      by apply not_excluded_iff.
    + intros v' Hv'. apply list_elem_of_fmap in Hv' as (c & [= Hc1 Hc2] & _).
      subst c v'. exact Hassoc.
  - unfold base_columns, columns_for_model. rewrite Hm, Hc.
    destruct (field_list _ _ _ _) as [fl final]. simpl in *.
    destruct (Hentry fl Hnames Hcol) as (col & Hassoc & Hv).
    exists col. split; [|exact Hv].
    rewrite od_update_assoc_notin by (by rewrite map_fst_some).
    by rewrite assoc_map_some, Hassoc.
Qed.

Lemma synthesized_column_has_field_verbose_name_witness :
  NoDup (map f_name (fields Samples.Country ++ many_to_many Samples.Country))
  ∧ ∃ col, assoc "tld" (base_columns
                          (mkOptions (Some Samples.Country) (Some ["tld"]) None)
                          [] 0%nat).1 = Some (Some col)
           ∧ Columns.verbose_name col = Some "Domain Extension".
Proof.
  assert (H1 : NoDup (map f_name (fields Samples.Country
                                  ++ many_to_many Samples.Country)))
    by compute_done.
  split; [exact H1|].
  refine (synthesized_column_has_field_verbose_name
            (mkOptions (Some Samples.Country) (Some ["tld"]) None)
            Samples.Country [] 0%nat (mkField "tld" "Domain Extension")
            eq_refl H1 _ eq_refl _).
  - simpl. do 4 apply list_elem_of_further. apply list_elem_of_here.
  - apply not_elem_of_nil.
Defined.

End ExtraRegistry.

(** ** Accessor resolution *)

Module ExtraResolution.
Import Base Models.

(** X13: a column's default stands in for [None] only.  Take a column
    without a default: if resolving it raises, resolving it raises the same
    error whatever default the column is given, and if it resolves to a
    value that is not [None], that value is returned whatever default the
    column is given.  In both cases the default is never consulted. *)
Theorem default_replaces_only_none (data : pyobj)
    (bc : BoundColumn default_obj) (d : default_obj) :
  default_is_not_None (Columns.default (column bc)) = false →
  (∀ e, _default_render data bc = Raise e →
     _default_render data (Paths.with_default bc d) = Raise e)
  ∧ (∀ v, _default_render data bc = Ok v → is_None v = false →
       _default_render data (Paths.with_default bc d) = Ok v).
Proof.
  intros Hnd. unfold _default_render.
  change (src_accessor (Paths.with_default bc d)) with (src_accessor bc).
  change (Columns.default (column (Paths.with_default bc d))) with d.
  rewrite Hnd.
  destruct (traverse _ _ data) as [current|e0]; simpl.
  - split.
    + intros e. by destruct (is_None current).
    + intros v. destruct (is_None current) eqn:E.
      * intros [= <-] Hv. congruence.
      * done.
  - split; done.
Qed.

Lemma default_replaces_only_none_witness :
  default_is_not_None (Columns.default (column Samples.capital_name)) = false
  ∧ _default_render Samples.germany
      (Paths.with_default Samples.capital_name
         (DefaultObj (Samples.py_str "none")))
    = Ok (Samples.py_str "Berlin")
  ∧ _default_render Samples.germany
      (Paths.with_default Samples.invalid (DefaultObj (Samples.py_str "none")))
    = Raise (ValueError "Could not resolve invalid from capital__invalid").
Proof.
  split; [reflexivity|]. split.
  - apply (default_replaces_only_none Samples.germany Samples.capital_name
             (DefaultObj (Samples.py_str "none")) eq_refl); reflexivity.
  - apply (default_replaces_only_none Samples.germany Samples.invalid
             (DefaultObj (Samples.py_str "none")) eq_refl). reflexivity.
Defined.

End ExtraResolution.

(** ** Ordering requests *)

Module ExtraOrdering.
Import Base.

(** X15: a model table validates column names for ordering only: for
    every other purpose [_validate_column_name] answers [False], whatever
    the base class says and whatever backs the table; and a name it
    accepts has been accepted by the base class and is backed by a path
    the model of the table's queryset can be ordered by. *)
Theorem model_table_validates_ordering_only {D}
    (queryset_model : option (string → bool))
    (policy : bool) (cols : list (BoundColumn D)) (n purpose : string) :
  (purpose ≠ "order_by" →
     Models._validate_column_name queryset_model policy cols n purpose
     = Ok false)
  ∧ (Models._validate_column_name queryset_model policy cols n purpose
     = Ok true →
     purpose = "order_by"
     ∧ Base._validate_column_name policy cols n purpose = true
     ∧ ∃ field_error bc,
         queryset_model = Some field_error
         ∧ lookup_column cols n = Ok bc
         ∧ field_error (src_accessor bc) = false).
Proof.
  unfold Models._validate_column_name. split.
  - intros Hp. destruct (Base._validate_column_name policy cols n purpose);
      simpl; [|reflexivity]. by rewrite bool_decide_false.
  - destruct (Base._validate_column_name policy cols n purpose); simpl; [|done].
    case_bool_decide as Hp; [|done].
    destruct (lookup_column cols n) as [bc|e]; simpl; [|done].
    destruct queryset_model as [field_error|]; [|done].
    destruct (field_error (src_accessor bc)) eqn:E; [done|].
    intros _. split; [exact Hp|]. split; [reflexivity|].
    by exists field_error, bc.
Qed.

Lemma lstrip_hyphen_no_prefix (s : string) :
  has_prefix (Utils.lstrip_hyphen s) = false.
Proof.
  induction s as [|a s IH]; [reflexivity|].
  destruct (has_prefix (String a s)) eqn:E.
  - apply OrderingFacts.has_prefix_spec in E as [rest [= -> ->]]. exact IH.
  - destruct a as [[] [] [] [] [] [] [] []]; simpl in *; congruence.
Qed.

(** The test strips the hyphens of the query only: a secondary column
    that is itself written with a hyphen is paired with the same token. *)
Example get_order_by_hyphenated_secondary :
  Utils.get_order_by {["sort" := "-name"]} "sort" (Some "-name")
  = Utils.TwoOrders "-name" (Some "-name")
  ∧ Utils.get_order_by {["sort" := "--name"]} "sort" (Some "name")
    = Utils.OneOrder "--name".
Proof. split; reflexivity. Qed.

(** X16: [get_order_by] returns [None] when the query has no such
    parameter, and the query's string alone when it is empty or when,
    stripped of all its leading hyphens, it equals the secondary column;
    otherwise it returns the query's string, unchanged, followed by the
    secondary column.  In a two-element result the query's string without
    its leading hyphens differs from the secondary column as it was
    passed. *)
Theorem get_order_by_result (query_dict : gmap string string)
    (param : string) (secondary : option string) :
  match Utils.get_order_by query_dict param secondary with
  | Utils.NoOrder => query_dict !! param = None
  | Utils.OneOrder o =>
      query_dict !! param = Some o
      ∧ (o = EmptyString ∨ Some (Utils.lstrip_hyphen o) = secondary)
  | Utils.TwoOrders o s =>
      query_dict !! param = Some o ∧ s = secondary ∧ o ≠ EmptyString
      ∧ Some (Utils.lstrip_hyphen o) ≠ secondary
      ∧ has_prefix (Utils.lstrip_hyphen o) = false
  end.
Proof.
  unfold Utils.get_order_by.
  destruct (query_dict !! param) as [o|]; [|reflexivity].
  destruct (decide (o = EmptyString)) as [->|Hne].
  - rewrite bool_decide_true by done. simpl. split; [done|by left].
  - rewrite bool_decide_false by done. simpl.
    case_bool_decide as Hs; simpl.
    + split; [done|by right].
    + repeat split; try done. apply lstrip_hyphen_no_prefix.
Qed.

End ExtraOrdering.

(** ** Rows and construction of model tables *)

Module ExtraModelTable.
Import ModelRows.

(** X17: the length of the rows is cached.  A call that returns caches
    its answer: a further call returns the same length and makes no
    request, even if the source has changed meanwhile.  With nothing
    cached, a list and any other iterable are measured, a queryset is
    asked for its count and is never loaded; a sequence that is no list (a
    tuple, a string) has a callable [count] and no [select_related], so
    the call raises [AttributeError], and an object that cannot be
    iterated raises [TypeError]; a call that raises caches nothing and
    leaves the state as it was.  After [_reset] the length is taken
    afresh. *)
Theorem rows_length_is_cached {R} (data data' : source R) (st : rows_state) :
  (∀ n, (__len__ data st).1 = Ok n →
     __len__ data' (__len__ data st).2 = __len__ data st)
  ∧ (_length st = None → ∀ n, (__len__ data st).1 = Ok n →
     n = length (rows_of data)
     ∧ requests (__len__ data st).2
       = (requests st ++ match data with
                         | QuerySet _ => [CountQuery]
                         | Iterable _ => [LoadAll]
                         | _ => []
                         end)%list)
  ∧ (∀ e, (__len__ data st).1 = Raise e ↔
       _length st = None
       ∧ ((∃ rows, data = Sequence rows) ∧ e = AttributeError "select_related"
          ∨ data = Opaque ∧ e = TypeError "object is not iterable"))
  ∧ (∀ e, (__len__ data st).1 = Raise e → (__len__ data st).2 = st)
  ∧ (∀ n, (__len__ data' (_reset (__len__ data st).2)).1 = Ok n →
     n = length (rows_of data')).
Proof.
  unfold __len__, _reset. split; [|split; [|split; [|split]]].
  - intros n. destruct (_length st) as [m|] eqn:E; simpl; [by rewrite E|].
    by destruct data.
  - intros -> n. destruct data; simpl; intros [= <-]; by rewrite ?app_nil_r.
  - intros e. destruct (_length st) as [m|] eqn:E; simpl.
    + split; [done|]. by intros [? _].
    + destruct data; simpl; split; try done.
      * intros (_ & [[(rows' & Hr) _]|[Hr _]]); discriminate.
      * intros (_ & [[(rows' & Hr) _]|[Hr _]]); discriminate.
      * intros [= <-]. split; [done|]. left. split; [by eexists|done].
      * intros (_ & [[_ ->]|[Hr _]]); [done|discriminate].
      * intros (_ & [[(rows' & Hr) _]|[Hr _]]); discriminate.
      * intros [= <-]. split; [done|]. by right.
      * intros (_ & [[(rows' & Hr) _]|[_ ->]]); [discriminate|done].
  - intros e. destruct (_length st) as [m|] eqn:E; simpl; [done|].
    by destruct data.
  - intros n. simpl. destruct data'; simpl; by intros [= <-].
Qed.

Import ModelTableInit.

(** X18: a model table needs data or a model.  Construction raises
    exactly when the table has no model and the data is [None] or the
    empty list; an empty list counts as no data, so with a model the table
    is then backed by the model's empty queryset, and a list that backs a
    table is never empty. *)
Theorem table_needs_data_or_model {R Q} (meta_model : option Models.Model)
    (data : data_arg R Q) :
  ((∃ e, __init__ meta_model data = Raise e)
   ↔ meta_model = None ∧ (data = NoData ∨ data = ListArg []))
  ∧ __init__ (R := R) (Q := Q) meta_model (ListArg []) = __init__ meta_model NoData
  ∧ (∀ l, __init__ meta_model data = Ok (GivenList l) →
       l ≠ [] ∧ data = ListArg l)
  ∧ (∀ m, meta_model = Some m → data = NoData ∨ data = ListArg [] →
       __init__ meta_model data = Ok (ManagerNone m)).
Proof.
  split; [|split; [reflexivity|split]].
  - split.
    + intros [e He]. destruct data as [|[|x l]|m|q], meta_model; simpl in He;
        try discriminate; split; auto.
    + intros [-> [->| ->]]; eexists; reflexivity.
  - intros l. destruct data as [|[|x l']|m|q], meta_model; simpl;
      try discriminate; intros [= <-]; done.
  - intros m -> [->| ->]; reflexivity.
Qed.

End ExtraModelTable.
